(** * Motion-feature pipeline of the ESP32-S3 IMU sketch

    A shallow embedding of the second sketch of
    [Arduino_Code/ESP32_S3___IAQ_pub_sub_01.ino]: the single-pole high-pass
    filter, the sliding RMS ring buffer, the threshold classifier and the
    two timers of [loop].

    The sketch computes in C [float].  Every definition below is written once,
    over an interface [CFloat] of the arithmetic the source uses, and read at
    two instances:
    - [F32.float32]: IEEE-754 binary32 with round-to-nearest-even, every
      operation rounded on its own (the Standard Library's [SpecFloat] at
      precision 24, maximal exponent 128);
    - [Exact.exact]: the real numbers, the arithmetic the closed forms of the
      design are written in.

    Machine integers ([uint16_t], [uint32_t], [int16_t], [int32_t]) are [Z]
    with the wrap-around written out. *)

From Stdlib Require Import ZArith Reals Lra Lia String.
From Stdlib Require Import Floats.SpecFloat.
From Stdlib Require Import Machin.
From stdpp Require Import base list.

Local Open Scope Z_scope.

(** ** Machine integers *)

Definition u8 (z : Z) : Z := z mod 2 ^ 8.
Definition u16 (z : Z) : Z := z mod 2 ^ 16.
Definition u32 (z : Z) : Z := z mod 2 ^ 32.

(** The cast [(int16_t)] of a value held in an [int]. *)
Definition s16 (z : Z) : Z :=
  let m := z mod 2 ^ 16 in if m <? 2 ^ 15 then m else m - 2 ^ 16.

(** The cast [(int32_t)] of an [unsigned long] (32 bits on the ESP32). *)
Definition s32 (z : Z) : Z :=
  let m := z mod 2 ^ 32 in if m <? 2 ^ 31 then m else m - 2 ^ 32.

(** ** The arithmetic of C [float] *)

Class CFloat (F : Type) := {
  (** the decimal literal [m * 10^-k], e.g. [0.03f] is [f_dec 3 2] *)
  f_dec : Z -> nat -> F;
  (** conversion of an integer value to [float] *)
  f_of_int : Z -> F;
  f_add : F -> F -> F;
  f_sub : F -> F -> F;
  f_mul : F -> F -> F;
  f_div : F -> F -> F;
  (** [sqrtf] and [fabsf] *)
  f_sqrt : F -> F;
  f_abs : F -> F;
  (** the C comparison [x >= y] *)
  f_ge : F -> F -> bool
}.

(** *** binary32 *)
Module F32.

Definition prec : Z := 24.
Definition emax : Z := 128.

(** Nearest binary32 value of an integer. *)
Definition of_Z (z : Z) : spec_float := binary_normalize prec emax z 0 false.

(** A decimal literal: the correctly rounded quotient of the digits by the
    power of ten.  Both are exact in binary32 for every literal of the
    sketch (see [literals_exact]), so the quotient is the nearest binary32
    value of the literal, which is what the compiler stores. *)
Definition dec (m : Z) (k : nat) : spec_float :=
  SFdiv prec emax (of_Z m) (of_Z (10 ^ Z.of_nat k)).

(** [x >= y] is false as soon as one side is a NaN. *)
Definition ge (x y : spec_float) : bool := SFleb y x.

#[global] Instance float32 : CFloat spec_float := {|
  f_dec := dec;
  f_of_int := of_Z;
  f_add := SFadd prec emax;
  f_sub := SFsub prec emax;
  f_mul := SFmul prec emax;
  f_div := SFdiv prec emax;
  f_sqrt := SFsqrt prec emax;
  f_abs := SFabs;
  f_ge := ge
|}.

Definition nan : spec_float := S754_nan.
Definition pzero : spec_float := S754_zero false.
Definition nzero : spec_float := S754_zero true.

(** The real number a binary32 value stands for (0 for NaN and the
    infinities, which have none). *)
Definition toR (x : spec_float) : R :=
  match x with
  | S754_finite s m e =>
      let a := if s then IZR (Z.neg m) else IZR (Z.pos m) in
      if 0 <=? e then (a * IZR (2 ^ e))%R else (a / IZR (2 ^ (- e)))%R
  | _ => 0%R
  end.

(** Zero or a finite non-zero value. *)
Definition finite (x : spec_float) : bool :=
  match x with
  | S754_zero _ | S754_finite _ _ _ => true
  | _ => false
  end.

(** Sign bit clear, or NaN: what squares, their sums and square roots are. *)
Definition nonneg (x : spec_float) : bool :=
  match x with
  | S754_zero s | S754_infinity s | S754_finite s _ _ => negb s
  | S754_nan => true
  end.

End F32.

(** *** exact (real) arithmetic *)
Module Exact.

Definition ge (x y : R) : bool := if Rle_dec y x then true else false.

#[global] Instance exact : CFloat R := {|
  f_dec := fun m k => (IZR m / IZR (10 ^ Z.of_nat k))%R;
  f_of_int := IZR;
  f_add := Rplus;
  f_sub := Rminus;
  f_mul := Rmult;
  f_div := Rdiv;
  f_sqrt := sqrt;
  f_abs := Rabs;
  f_ge := ge
|}.

End Exact.

(** ** The sketch *)

Section Pipeline.
Context {F : Type} `{!CFloat F}.

(** *** Configuration constants (lines 333-369) *)

Definition HEARTBEAT_EVERY_MS : Z := 5000.
Definition PUBLISH_EVERY_MS : Z := 50.
(** [8192.0f] *)
Definition LSB_PER_G : F := f_dec 81920 1.
(** [100.0f] *)
Definition FS_HZ : F := f_dec 1000 1.
Definition DT_MS : Z := 10.
(** [0.5f] *)
Definition HP_FC_HZ : F := f_dec 5 1.
Definition RMS_WIN : Z := 25.

(** The four thresholds are globals that no statement of the sketch
    assigns: [0.03f], [0.10f], [0.20f], [0.35f]. *)
Definition TH_STRUCT : F := f_dec 3 2.
Definition TH_FOOT : F := f_dec 10 2.
Definition TH_KID : F := f_dec 20 2.
Definition TH_JUMP : F := f_dec 35 2.

(** *** [hpAlpha] (lines 372-376) *)
Definition hpAlpha (fs fc : F) : F :=
  let dt := f_div (f_dec 10 1) fs in
  let RC := f_div (f_dec 10 1)
              (f_mul (f_mul (f_dec 20 1) (f_dec 31415926 7)) fc) in
  f_div RC (f_add RC dt).

(** *** [readAccel_g] (lines 427-437)

    [bus] is the outcome of [i2cReadN(mpuAddr, REG_ACCEL_XOUT_H, raw, 6)]:
    [None] when the transmission is not acknowledged, otherwise the bytes
    the device returned; any number of bytes other than the 6 requested
    makes [i2cReadN] return false.  On failure the three outputs are not
    written. *)
Definition readAccel_g (bus : option (list Z)) : option (F * F * F) :=
  match bus with
  | Some [b0; b1; b2; b3; b4; b5] =>
      let ax_raw := s16 (Z.lor (Z.shiftl (u8 b0) 8) (u8 b1)) in
      let ay_raw := s16 (Z.lor (Z.shiftl (u8 b2) 8) (u8 b3)) in
      let az_raw := s16 (Z.lor (Z.shiftl (u8 b4) 8) (u8 b5)) in
      Some (f_div (f_of_int ax_raw) LSB_PER_G,
            f_div (f_of_int ay_raw) LSB_PER_G,
            f_div (f_of_int az_raw) LSB_PER_G)
  | _ => None
  end.

(** *** The sliding RMS window (lines 361-366, 439-456) *)

Record Rms := {
  rmsBuf : list F;
  rmsCount : Z;
  rmsHead : Z;
  rmsSumSq : F
}.

(** Globals are zero-initialised: 25 slots of [0.0f]. *)
Definition rms_init : Rms := {|
  rmsBuf := replicate (Z.to_nat RMS_WIN) (f_dec 0 1);
  rmsCount := 0;
  rmsHead := 0;
  rmsSumSq := f_dec 0 1
|}.

(** [rmsBuf[i]].  The index is [rmsHead], which stays below [RMS_WIN]
    ([rms_wf_run]); outside the array the C program has no defined
    behaviour and the embedding reads [0.0f] and writes nothing. *)
Definition rmsAt (w : Rms) (i : Z) : F :=
  default (f_dec 0 1) (rmsBuf w !! Z.to_nat i).

Definition rmsPush (sampleAbs : F) (w : Rms) : F * Rms :=
  let s2 := f_mul sampleAbs sampleAbs in
  let w' :=
    if rmsCount w <? RMS_WIN then
      {| rmsBuf := <[Z.to_nat (rmsHead w) := sampleAbs]> (rmsBuf w);
         rmsSumSq := f_add (rmsSumSq w) s2;
         rmsHead := u16 ((rmsHead w + 1) mod RMS_WIN);
         rmsCount := u16 (rmsCount w + 1) |}
    else
      let tail := rmsHead w in
      let old := rmsAt w tail in
      {| rmsBuf := <[Z.to_nat tail := sampleAbs]> (rmsBuf w);
         rmsSumSq := f_add (f_sub (rmsSumSq w) (f_mul old old)) s2;
         rmsHead := u16 ((rmsHead w + 1) mod RMS_WIN);
         rmsCount := rmsCount w |} in
  let n := if rmsCount w' =? 0 then 1 else rmsCount w' in
  (f_sqrt (f_div (rmsSumSq w') (f_of_int n)), w').

(** Successive calls, with every return value. *)
Fixpoint rmsPushes (vs : list F) (w : Rms) : list F * Rms :=
  match vs with
  | [] => ([], w)
  | v :: vs' =>
      let p := rmsPush v w in
      let q := rmsPushes vs' p.2 in
      (p.1 :: q.1, q.2)
  end.

(** The window after pushing [vs] into the initial one, and the value the
    last of these calls returned. *)
Definition rmsAfter (vs : list F) : Rms := (rmsPushes vs rms_init).2.
Definition rmsLast (vs : list F) : option F := last (rmsPushes vs rms_init).1.

(** The occupied slots: the first [rmsCount] of the buffer. *)
Definition occupied (w : Rms) : list F :=
  take (Z.to_nat (rmsCount w)) (rmsBuf w).

(** *** [classifyLabel] (lines 458-464) *)
Definition classifyLabel (rms : F) : string :=
  if f_ge rms TH_JUMP then "JUMP"%string
  else if f_ge rms TH_KID then "PLAY"%string
  else if f_ge rms TH_FOOT then "FOOT"%string
  else if f_ge rms TH_STRUCT then "STRUCT"%string
  else "CALM"%string.

Definition labels : list string :=
  ["JUMP"; "PLAY"; "FOOT"; "STRUCT"; "CALM"]%string.

(** *** Global state of the sketch (lines 334-366) *)

Record State := {
  mpuAddr : Z;
  nextTick : Z;
  lastHeartbeatMs : Z;
  lastImuPublishMs : Z;
  hp_alpha : F;
  mag_prev : F;
  hp_prev : F;
  rms : Rms
}.

Definition init_state : State := {|
  mpuAddr := 0;
  nextTick := 0;
  lastHeartbeatMs := 0;
  lastImuPublishMs := 0;
  hp_alpha := f_dec 0 1;
  mag_prev := f_dec 0 1;
  hp_prev := f_dec 0 1;
  rms := rms_init
|}.

(** The JSON document of one IMU publication (lines 606-614) and what the
    sketch sends to the broker. *)
Record ImuJson := {
  j_ms : Z;
  j_ax : F;
  j_ay : F;
  j_az : F;
  j_mag : F;
  j_hp_abs : F;
  j_rms : F;
  j_label : string
}.

Inductive Event :=
| EvImu (j : ImuJson)
| EvHeartbeat (uptime_ms : Z)
| EvStatus (s : string).

Definition isImu (e : Event) : bool :=
  match e with EvImu _ => true | _ => false end.

(** *** [mpuInit] (lines 394-425)

    [ack a] tells whether the device at bus address [a] acknowledges a
    transmission; [t] is what [millis()] returns at line 423. *)
Definition mpuInit (addrProbeA addrProbeB : Z) (ack : Z -> bool) (t : Z)
    (st : State) : bool * State :=
  let scanned :=
    fold_left
      (fun addr a =>
         if ack a && ((a =? addrProbeA) || (a =? addrProbeB)) && (addr =? 0)
         then a else addr)
      (seqZ 1 126) (mpuAddr st) in
  let probed :=
    if scanned =? 0 then
      if ack addrProbeA then addrProbeA
      else if ack addrProbeB then addrProbeB else scanned
    else scanned in
  if probed =? 0 then
    (false,
     {| mpuAddr := probed; nextTick := nextTick st;
        lastHeartbeatMs := lastHeartbeatMs st;
        lastImuPublishMs := lastImuPublishMs st;
        hp_alpha := hp_alpha st; mag_prev := mag_prev st;
        hp_prev := hp_prev st; rms := rms st |})
  else
    (true,
     {| mpuAddr := probed; nextTick := u32 t;
        lastHeartbeatMs := lastHeartbeatMs st;
        lastImuPublishMs := lastImuPublishMs st;
        hp_alpha := hpAlpha FS_HZ HP_FC_HZ; mag_prev := mag_prev st;
        hp_prev := hp_prev st; rms := rms st |}).

(** *** [setup] (lines 546-574), after the connectivity helpers *)
Definition setup (ack : Z -> bool) (t : Z) : State * list Event :=
  let '(ok, st) := mpuInit 104 105 ack t init_state in
  (st, [EvStatus (if ok then "imu_online" else "imu_not_found")%string]).

(** *** [loop] (lines 577-638) *)

(** Line 591. *)
Definition magnitude (a : F * F * F) : F :=
  let '(ax, ay, az) := a in
  f_sqrt (f_add (f_add (f_mul ax ax) (f_mul ay ay)) (f_mul az az)).

(** Line 603: a publication is due. *)
Definition publishDue (now : Z) (st : State) : bool :=
  PUBLISH_EVERY_MS <=? u32 (now - lastImuPublishMs st).

(** Lines 591-619: the body run when [readAccel_g] succeeded. *)
Definition processSample (now : Z) (a : F * F * F) (st : State)
    : State * list Event :=
  let '(ax, ay, az) := a in
  let mag := magnitude a in
  let hp := f_mul (hp_alpha st) (f_add (hp_prev st) (f_sub mag (mag_prev st))) in
  let hp_abs := f_abs hp in
  let '(rmsv, w) := rmsPush hp_abs (rms st) in
  let label := classifyLabel rmsv in
  if publishDue now st then
    ({| mpuAddr := mpuAddr st; nextTick := nextTick st;
        lastHeartbeatMs := lastHeartbeatMs st;
        lastImuPublishMs := now;
        hp_alpha := hp_alpha st; mag_prev := mag; hp_prev := hp; rms := w |},
     [EvImu {| j_ms := now; j_ax := ax; j_ay := ay; j_az := az;
               j_mag := mag; j_hp_abs := hp_abs; j_rms := rmsv;
               j_label := label |}])
  else
    ({| mpuAddr := mpuAddr st; nextTick := nextTick st;
        lastHeartbeatMs := lastHeartbeatMs st;
        lastImuPublishMs := lastImuPublishMs st;
        hp_alpha := hp_alpha st; mag_prev := mag; hp_prev := hp; rms := w |},
     []).

(** Line 585: the sample tick is due. *)
Definition sampleDue (now : Z) (st : State) : bool :=
  0 <=? s32 (now - nextTick st).

(** Lines 585-622: the sampling block of [loop].  [bus] is the outcome of
    the accelerometer read, would it be made. *)
Definition sampling (now : Z) (bus : option (list Z)) (st : State)
    : State * list Event :=
  if sampleDue now st then
    let st' :=
      {| mpuAddr := mpuAddr st; nextTick := u32 (nextTick st + DT_MS);
         lastHeartbeatMs := lastHeartbeatMs st;
         lastImuPublishMs := lastImuPublishMs st;
         hp_alpha := hp_alpha st; mag_prev := mag_prev st;
         hp_prev := hp_prev st; rms := rms st |} in
    if mpuAddr st' =? 0 then (st', [])
    else
      match readAccel_g bus with
      | Some a => processSample now a st'
      | None => (st', [])
      end
  else (st, []).

(** Lines 625-635: the heartbeat block. *)
Definition heartbeat (now : Z) (st : State) : State * list Event :=
  if HEARTBEAT_EVERY_MS <=? u32 (now - lastHeartbeatMs st) then
    ({| mpuAddr := mpuAddr st; nextTick := nextTick st;
        lastHeartbeatMs := now;
        lastImuPublishMs := lastImuPublishMs st;
        hp_alpha := hp_alpha st; mag_prev := mag_prev st;
        hp_prev := hp_prev st; rms := rms st |},
     [EvHeartbeat now])
  else (st, []).

(** One iteration: [millis] is the value [millis()] returns at line 582;
    the connectivity helpers of lines 578-580 touch none of the state below. *)
Definition loop (millis : Z) (bus : option (list Z)) (st : State)
    : State * list Event :=
  let now := u32 millis in
  let s := sampling now bus st in
  let h := heartbeat now s.1 in
  (h.1, s.2 ++ h.2).

(** A run of iterations, with what each one sent. *)
Fixpoint run (checks : list (Z * option (list Z))) (st : State)
    : State * list (list Event) :=
  match checks with
  | [] => (st, [])
  | (t, bus) :: rest =>
      let p := loop t bus st in
      let q := run rest p.1 in
      (q.1, p.2 :: q.2)
  end.

(** The filter and window state, the part of [State] the pipeline owns. *)
Definition pipeline (st : State) : F * F * F * Rms :=
  (hp_alpha st, mag_prev st, hp_prev st, rms st).

(** How many iterations of a run fired the sample tick. *)
Fixpoint firedTicks (checks : list (Z * option (list Z))) (st : State) : Z :=
  match checks with
  | [] => 0
  | (t, bus) :: rest =>
      (if sampleDue (u32 t) st then 1 else 0)
      + firedTicks rest (loop t bus st).1
  end.

End Pipeline.

Arguments Rms : clear implicits.
Arguments State : clear implicits.
Arguments ImuJson : clear implicits.
Arguments Event : clear implicits.
Arguments rmsPush : simpl never.
Arguments classifyLabel : simpl never.
Arguments processSample : simpl never.
Arguments hpAlpha : simpl never.

(** ** Vocabulary of the statements *)

Section Vocabulary.
Context {F : Type} `{!CFloat F}.

(** Shape of the ring buffer: 25 slots, a count of at most 25, a head
    inside the array which equals the count until the buffer is full. *)
Definition rms_wf (w : Rms F) : Prop :=
  length (rmsBuf w) = Z.to_nat RMS_WIN
  /\ 0 <= rmsCount w <= RMS_WIN
  /\ 0 <= rmsHead w < RMS_WIN
  /\ (rmsCount w < RMS_WIN -> rmsHead w = rmsCount w).

(** Squares added one after the other to [0.0f], as [rmsPush] does. *)
Definition sumSqF (vs : list F) : F :=
  fold_left (fun acc v => f_add acc (f_mul v v)) vs (f_dec 0 1).

(** The last [n] elements. *)
Definition trailing (n : nat) (vs : list F) : list F :=
  drop (length vs - n) vs.

(** The occupied slots from the oldest value to the newest: the write
    position is where the oldest value sits once the buffer is full. *)
Definition chronological (w : Rms F) : list F :=
  drop (Z.to_nat (rmsHead w)) (occupied w)
  ++ take (Z.to_nat (rmsHead w)) (occupied w).

(** The record a sample tick computes (lines 591-596 and 607-614). *)
Definition sampleOutput (now : Z) (a : F * F * F) (st : State F)
    : ImuJson F :=
  let mag := magnitude a in
  let hp := f_mul (hp_alpha st) (f_add (hp_prev st) (f_sub mag (mag_prev st))) in
  {| j_ms := now; j_ax := a.1.1; j_ay := a.1.2; j_az := a.2;
     j_mag := mag; j_hp_abs := f_abs hp;
     j_rms := (rmsPush (f_abs hp) (rms st)).1;
     j_label := classifyLabel (rmsPush (f_abs hp) (rms st)).1 |}.

(** Successive successful sample ticks, each with the time it ran at. *)
Definition feed (xs : list (Z * (F * F * F))) (st : State F) : State F :=
  fold_left (fun s x => (processSample x.1 x.2 s).1) xs st.

(** Iterations exactly one sample period apart, starting at [t]. *)
Fixpoint idealChecks (t : Z) (buses : list (option (list Z)))
    : list (Z * option (list Z)) :=
  match buses with
  | [] => []
  | b :: bs => (t, b) :: idealChecks (t + DT_MS) bs
  end.

(** The filter recursion on the pipeline state alone: what one successful
    sample tick makes of the coefficient, the two previous values and the
    window. *)
Definition pipelineStep (a : F * F * F) (p : F * F * F * Rms F)
    : F * F * F * Rms F :=
  let '(alpha, mprev, hprev, w) := p in
  let mag := magnitude a in
  let hp := f_mul alpha (f_add hprev (f_sub mag mprev)) in
  (alpha, mag, hp, (rmsPush (f_abs hp) w).2).

(** The times of a run never go back, stay below [2^31] ms (no wrap of
    [millis()] yet) and follow each other by at most [gap] ms; the first is
    compared with [t]. *)
Fixpoint spaced (gap t : Z) (checks : list (Z * option (list Z))) : Prop :=
  match checks with
  | [] => True
  | (t', _) :: rest => t <= t' <= t + gap /\ t' < 2 ^ 31 /\ spaced gap t' rest
  end.

(** The time of the last iteration of a run ([t] for the empty run). *)
Fixpoint lastTime (t : Z) (checks : list (Z * option (list Z))) : Z :=
  match checks with
  | [] => t
  | (t', _) :: rest => lastTime t' rest
  end.

(** Number of IMU records among what an iteration sent. *)
Definition imuCount (evs : list (Event F)) : nat := length (List.filter isImu evs).

End Vocabulary.

(** Sum of squares over the reals. *)
Definition sumSq (vs : list R) : R := foldr (fun v acc => (v * v + acc)%R) 0%R vs.

(** The closed form of the high-pass coefficient, over the reals and with
    the real pi. *)
Definition alpha_closed (fs fc : R) : R :=
  let RC := (1 / (2 * PI * fc))%R in
  let dt := (1 / fs)%R in
  (RC / (RC + dt))%R.

(** What the invariant of the running sum says of one window. *)
Definition sum_inv (w : Rms R) : Prop :=
  rms_wf w /\ rmsSumSq w = sumSq (occupied w).

(** The binary32 values 4.0, 1.0 and 0.0. *)
Definition f32_four : spec_float := F32.dec 40 1.
Definition f32_one : spec_float := F32.dec 10 1.
Definition f32_zero : spec_float := F32.dec 0 1.
(** [2^-12], about 0.000244: two steps of the accelerometer at +-4 g. *)
Definition f32_tiny : spec_float := S754_finite false 8388608 (-35).

(** A board with the accelerometer at address 0x68, and a read of 1 g on
    the z axis. *)
Definition ack68 (a : Z) : bool := a =? 104.
Definition bus_1g : option (list Z) := Some [0; 0; 0; 0; 32; 0].

(** The sample [bus_1g] decodes to, and the binary32 value [16 * 2^-149],
    sixteen times the smallest positive one. *)
Definition sample_1g : spec_float * spec_float * spec_float :=
  (F32.pzero, F32.pzero, f32_one).
Definition f32_floor : spec_float := S754_finite false 16 (-149).

(** * Properties *)

(** ** Machine integers *)

Lemma u16_small z : 0 <= z < 2 ^ 16 -> u16 z = z.
Proof. intros Hz. unfold u16. apply Z.mod_small. exact Hz. Qed.

Lemma u32_small z : 0 <= z < 2 ^ 32 -> u32 z = z.
Proof. intros Hz. unfold u32. apply Z.mod_small. exact Hz. Qed.

Lemma u32_range z : 0 <= u32 z < 2 ^ 32.
Proof. unfold u32. apply Z.mod_pos_bound. lia. Qed.

Lemma s32_small z : - 2 ^ 31 <= z < 2 ^ 31 -> s32 z = z.
Proof.
  intros Hz. unfold s32.
  destruct (Z.neg_nonneg_cases z) as [Hneg | Hpos].
  - replace (z mod 2 ^ 32) with (z + 2 ^ 32).
    + destruct (Z.ltb_spec (z + 2 ^ 32) (2 ^ 31)); lia.
    + apply Z.mod_unique with (q := -1); lia.
  - rewrite Z.mod_small by lia.
    destruct (Z.ltb_spec z (2 ^ 31)); lia.
Qed.

(** ** Shape of the ring buffer *)

Section RmsShape.
Context {F : Type} `{!CFloat F}.

Lemma rms_wf_init : rms_wf (rms_init (F := F)).
Proof.
  unfold rms_wf, rms_init. cbn [rmsBuf rmsCount rmsHead rmsSumSq].
  rewrite length_replicate. unfold RMS_WIN. repeat split; lia.
Qed.

(** Below capacity [rmsPush] takes its first branch. *)
Lemma rmsPush_filling (v : F) (w : Rms F) :
  rmsCount w < RMS_WIN ->
  (rmsPush v w).2 =
    {| rmsBuf := <[Z.to_nat (rmsHead w) := v]> (rmsBuf w);
       rmsSumSq := f_add (rmsSumSq w) (f_mul v v);
       rmsHead := u16 ((rmsHead w + 1) mod RMS_WIN);
       rmsCount := u16 (rmsCount w + 1) |}.
Proof.
  intros Hc. unfold rmsPush. cbn [snd].
  destruct (Z.ltb_spec (rmsCount w) RMS_WIN); [reflexivity | lia].
Qed.

(** At capacity it takes the second. *)
Lemma rmsPush_full (v : F) (w : Rms F) :
  RMS_WIN <= rmsCount w ->
  (rmsPush v w).2 =
    {| rmsBuf := <[Z.to_nat (rmsHead w) := v]> (rmsBuf w);
       rmsSumSq := f_add (f_sub (rmsSumSq w)
                            (f_mul (rmsAt w (rmsHead w)) (rmsAt w (rmsHead w))))
                     (f_mul v v);
       rmsHead := u16 ((rmsHead w + 1) mod RMS_WIN);
       rmsCount := rmsCount w |}.
Proof.
  intros Hc. unfold rmsPush. cbn [snd].
  destruct (Z.ltb_spec (rmsCount w) RMS_WIN); [lia | reflexivity].
Qed.

Lemma rmsPush_ret (v : F) (w : Rms F) :
  (rmsPush v w).1 =
    f_sqrt (f_div (rmsSumSq (rmsPush v w).2)
              (f_of_int (if rmsCount (rmsPush v w).2 =? 0 then 1
                         else rmsCount (rmsPush v w).2))).
Proof. reflexivity. Qed.

Lemma head_step h : 0 <= h < RMS_WIN -> u16 ((h + 1) mod RMS_WIN) = (h + 1) mod RMS_WIN.
Proof.
  intros Hh. apply u16_small.
  pose proof (Z.mod_pos_bound (h + 1) RMS_WIN) as Hb.
  unfold RMS_WIN in *. lia.
Qed.

Lemma rmsPush_wf (v : F) (w : Rms F) : rms_wf w -> rms_wf (rmsPush v w).2.
Proof.
  intros (Hlen & Hcnt & Hhd & Hfill).
  pose proof (Z.mod_pos_bound (rmsHead w + 1) RMS_WIN) as Hb.
  destruct (Z.lt_ge_cases (rmsCount w) RMS_WIN) as [Hc | Hc].
  - rewrite rmsPush_filling by exact Hc.
    unfold rms_wf. simpl. rewrite length_insert, head_step by exact Hhd.
    rewrite u16_small by (unfold RMS_WIN in *; lia).
    rewrite (Hfill Hc) in *.
    unfold RMS_WIN in *.
    repeat split; try lia.
    intros Hlt. apply Z.mod_small. lia.
  - rewrite rmsPush_full by exact Hc.
    unfold rms_wf. simpl. rewrite length_insert, head_step by exact Hhd.
    unfold RMS_WIN in *. repeat split; lia.
Qed.

Lemma rmsPushes_snoc (vs : list F) (v : F) (w : Rms F) :
  rmsPushes (vs ++ [v]) w =
    ((rmsPushes vs w).1 ++ [(rmsPush v (rmsPushes vs w).2).1],
     (rmsPush v (rmsPushes vs w).2).2).
Proof.
  revert w. induction vs as [| x vs IH]; intros w; cbn.
  - reflexivity.
  - rewrite IH. reflexivity.
Qed.

Lemma rmsAfter_snoc (vs : list F) (v : F) :
  rmsAfter (vs ++ [v]) = (rmsPush v (rmsAfter vs)).2.
Proof. unfold rmsAfter. rewrite rmsPushes_snoc. reflexivity. Qed.

Lemma rmsLast_snoc (vs : list F) (v : F) :
  rmsLast (vs ++ [v]) = Some (rmsPush v (rmsAfter vs)).1.
Proof. unfold rmsLast, rmsAfter. rewrite rmsPushes_snoc. simpl. apply last_snoc. Qed.

(** Every window reached from the initial one is well formed, so line 442,
    448 and 450 always index inside [rmsBuf]. *)
Lemma rms_wf_run (vs : list F) : rms_wf (rmsAfter vs).
Proof.
  induction vs as [| v vs IH] using rev_ind.
  - apply rms_wf_init.
  - rewrite rmsAfter_snoc. apply rmsPush_wf, IH.
Qed.

(** The count is the number of pushes, capped at the capacity. *)
Lemma rmsAfter_count (vs : list F) :
  rmsCount (rmsAfter vs) = Z.min (Z.of_nat (length vs)) RMS_WIN.
Proof.
  induction vs as [| v vs IH] using rev_ind.
  - reflexivity.
  - rewrite rmsAfter_snoc, length_app. cbn [length].
    destruct (Z.lt_ge_cases (rmsCount (rmsAfter vs)) RMS_WIN) as [Hc | Hc].
    + rewrite rmsPush_filling by exact Hc. cbn [rmsCount].
      rewrite u16_small by (unfold RMS_WIN in *; lia). lia.
    + rewrite rmsPush_full by exact Hc. cbn [rmsCount]. lia.
Qed.

End RmsShape.

(** ** The sliding RMS estimator *)

(** C1.  For every call [rmsPush v], made after the calls [vs]: while fewer
    than 25 values have been pushed, [v] is stored at the write position,
    [v * v] is added to the running sum, the write position advances by one
    modulo 25 and the count grows by one; once 25 have been pushed, the square
    of the value at the write position is subtracted first, then [v] is stored
    there, [v * v] added, the write position advances and the count stays 25.
    In both cases the call returns [sqrtf (rmsSumSq / max (rmsCount, 1))],
    and that divisor is at least 1. *)
Theorem rmsPush_spec {F : Type} `{!CFloat F} (vs : list F) (v : F) :
  let w := rmsAfter vs in
  let r := (rmsPush v w).1 in
  let w' := (rmsPush v w).2 in
  ((length vs < 25)%nat ->
     rmsCount w = Z.of_nat (length vs)
     /\ rmsBuf w' = <[Z.to_nat (rmsHead w) := v]> (rmsBuf w)
     /\ rmsBuf w' !! Z.to_nat (rmsHead w) = Some v
     /\ rmsSumSq w' = f_add (rmsSumSq w) (f_mul v v)
     /\ rmsHead w' = (rmsHead w + 1) mod 25
     /\ rmsCount w' = rmsCount w + 1)
  /\ ((25 <= length vs)%nat ->
      exists old : F,
        rmsBuf w !! Z.to_nat (rmsHead w) = Some old
        /\ rmsCount w = 25
        /\ rmsBuf w' = <[Z.to_nat (rmsHead w) := v]> (rmsBuf w)
        /\ rmsBuf w' !! Z.to_nat (rmsHead w) = Some v
        /\ rmsSumSq w' = f_add (f_sub (rmsSumSq w) (f_mul old old)) (f_mul v v)
        /\ rmsHead w' = (rmsHead w + 1) mod 25
        /\ rmsCount w' = 25)
  /\ r = f_sqrt (f_div (rmsSumSq w') (f_of_int (Z.max (rmsCount w') 1)))
  /\ 1 <= Z.max (rmsCount w') 1.
Proof.
  intros w r w'.
  destruct (rms_wf_run vs) as (Hlen & Hcnt & Hhd & Hfill).
  pose proof (rmsAfter_count vs) as Hc.
  fold w in Hlen, Hcnt, Hhd, Hfill, Hc.
  assert (Hin : (Z.to_nat (rmsHead w) < length (rmsBuf w))%nat).
  { rewrite Hlen. unfold RMS_WIN in *. lia. }
  split; [| split; [| split]].
  - intros Hlt.
    assert (Hc' : rmsCount w < RMS_WIN) by (unfold RMS_WIN in *; lia).
    subst w'. rewrite rmsPush_filling by exact Hc'. cbn [rmsBuf rmsSumSq rmsHead rmsCount].
    rewrite head_step by exact Hhd.
    rewrite u16_small by (unfold RMS_WIN in *; lia).
    repeat split; try reflexivity.
    + unfold RMS_WIN in *. lia.
    + apply list_lookup_insert_eq. exact Hin.
  - intros Hge.
    assert (Hc' : RMS_WIN <= rmsCount w) by (unfold RMS_WIN in *; lia).
    destruct (lookup_lt_is_Some_2 _ _ Hin) as [old Hold].
    exists old. subst w'. rewrite rmsPush_full by exact Hc'.
    cbn [rmsBuf rmsSumSq rmsHead rmsCount].
    rewrite head_step by exact Hhd.
    unfold rmsAt. rewrite Hold. cbn [default].
    repeat split; try reflexivity; try exact Hold.
    + unfold RMS_WIN in *. lia.
    + apply list_lookup_insert_eq. exact Hin.
    + unfold RMS_WIN in *. lia.
  - subst r. rewrite rmsPush_ret. fold w'.
    destruct (rmsPush_wf v w (rms_wf_run vs)) as (_ & Hcnt' & _).
    fold w' in Hcnt'.
    destruct (Z.eqb_spec (rmsCount w') 0) as [He | Hne].
    + rewrite He. reflexivity.
    + rewrite Z.max_l by lia. reflexivity.
  - lia.
Qed.

(** The statement at one binary32 input: the second push of a run. *)
Lemma rmsPush_spec_witness :
  (length [f32_one] < 25)%nat
  /\ rmsCount (rmsPush f32_tiny (rmsAfter [f32_one])).2 = 2
  /\ rmsHead (rmsPush f32_tiny (rmsAfter [f32_one])).2 = 2
  /\ rmsBuf (rmsPush f32_tiny (rmsAfter [f32_one])).2 !! 1%nat = Some f32_tiny.
Proof.
  assert (Hlt : (length [f32_one] < 25)%nat) by (simpl; lia).
  destruct (rmsPush_spec [f32_one] f32_tiny) as (Hfill & _).
  destruct (Hfill Hlt) as (Hc & _ & Hat & _ & Hhd & Hcnt).
  split; [exact Hlt |].
  split; [rewrite Hcnt, Hc; reflexivity |].
  split; [rewrite Hhd; reflexivity |].
  exact Hat.
Defined.

(** *** The running sum in exact arithmetic *)

Section ExactSum.
Local Open Scope R_scope.

Lemma sumSq_app (a b : list R) : sumSq (a ++ b) = sumSq a + sumSq b.
Proof.
  induction a as [| x a IH]; simpl.
  - lra.
  - rewrite IH. lra.
Qed.

Lemma sumSq_nonneg (a : list R) : 0 <= sumSq a.
Proof.
  induction a as [| x a IH]; simpl.
  - lra.
  - pose proof (Rle_0_sqr x) as Hx. unfold Rsqr in Hx. lra.
Qed.

Lemma exact_zero : f_dec (F := R) 0 1 = 0.
Proof. simpl. lra. Qed.

Lemma sum_inv_init : sum_inv rms_init.
Proof.
  split; [apply rms_wf_init |].
  unfold occupied, rms_init. cbn [rmsBuf rmsCount rmsSumSq].
  rewrite exact_zero. reflexivity.
Qed.

(** One call of [rmsPush] preserves it. *)
Lemma sum_inv_step (v : R) (w : Rms R) : sum_inv w -> sum_inv (rmsPush v w).2.
Proof.
  intros [Hwf Hsum]. split; [apply rmsPush_wf; exact Hwf |].
  destruct Hwf as (Hlen & Hcnt & Hhd & Hfill).
  assert (Hin : (Z.to_nat (rmsHead w) < length (rmsBuf w))%nat).
  { rewrite Hlen. unfold RMS_WIN in *. lia. }
  destruct (lookup_lt_is_Some_2 _ _ Hin) as [old Hold].
  destruct (Z.lt_ge_cases (rmsCount w) RMS_WIN) as [Hc | Hc].
  - rewrite rmsPush_filling by exact Hc.
    unfold occupied in *. cbn [rmsBuf rmsCount rmsSumSq].
    rewrite u16_small by (unfold RMS_WIN in *; lia).
    rewrite (Hfill Hc) in *.
    replace (Z.to_nat (rmsCount w + 1)) with (S (Z.to_nat (rmsCount w))) by lia.
    rewrite (take_S_r _ _ v) by (apply list_lookup_insert_eq; exact Hin).
    rewrite take_insert_ge by lia.
    rewrite sumSq_app, Hsum. simpl. lra.
  - rewrite rmsPush_full by exact Hc.
    unfold occupied in *. cbn [rmsBuf rmsCount rmsSumSq].
    rewrite take_ge in Hsum by (rewrite Hlen; unfold RMS_WIN in *; lia).
    rewrite take_ge by (rewrite length_insert, Hlen; unfold RMS_WIN in *; lia).
    unfold rmsAt. rewrite Hold. cbn [default].
    rewrite insert_take_drop by exact Hin.
    rewrite Hsum.
    rewrite <- (take_drop_middle _ _ _ Hold) at 1.
    rewrite !sumSq_app. simpl. lra.
Qed.

Lemma sum_inv_run (vs : list R) : sum_inv (rmsAfter vs).
Proof.
  induction vs as [| v vs IH] using rev_ind.
  - apply sum_inv_init.
  - rewrite rmsAfter_snoc. apply sum_inv_step, IH.
Qed.

End ExactSum.

(** C2.  Starting from the initial window (count 0, sum 0) and through every
    call of [rmsPush]: the count never exceeds 25, whatever the arithmetic;
    and in exact arithmetic [rmsSumSq] is the sum of the squares of the
    occupied slots, hence never negative. *)
Theorem rms_invariant :
  (forall (F : Type) (C : CFloat F) (xs : list F),
      0 <= rmsCount (rmsAfter xs) <= 25)
  /\ (forall vs : list R,
        rmsSumSq (rmsAfter vs) = sumSq (occupied (rmsAfter vs))
        /\ (0 <= rmsSumSq (rmsAfter vs))%R).
Proof.
  split.
  - intros F C xs. destruct (rms_wf_run xs) as (_ & Hcnt & _). exact Hcnt.
  - intros vs. destruct (sum_inv_run vs) as [_ Hsum].
    split; [exact Hsum |]. rewrite Hsum. apply sumSq_nonneg.
Qed.

(** *** What the window holds *)

Section RmsContents.
Context {F : Type} `{!CFloat F}.

Lemma trailing_short (n : nat) (vs : list F) :
  (length vs <= n)%nat -> trailing n vs = vs.
Proof.
  intros Hle. unfold trailing.
  replace (length vs - n)%nat with 0%nat by lia. reflexivity.
Qed.

Lemma trailing_snoc (n : nat) (vs : list F) (v : F) :
  (S n <= length vs)%nat ->
  trailing (S n) (vs ++ [v]) = drop 1 (trailing (S n) vs) ++ [v].
Proof.
  intros Hle. unfold trailing.
  rewrite length_app. cbn [length].
  rewrite drop_drop.
  replace (length vs + 1 - S n)%nat with (length vs - S n + 1)%nat by lia.
  apply drop_app_le. lia.
Qed.

(** Read from the oldest slot on, the window is the trailing 25 values
    pushed. *)
Lemma chronological_trailing (vs : list F) :
  chronological (rmsAfter vs) = trailing 25 vs.
Proof.
  induction vs as [| v vs IH] using rev_ind.
  - reflexivity.
  - pose proof (rms_wf_run vs) as (Hlen & Hcnt & Hhd & Hfill).
    pose proof (rmsAfter_count vs) as Hc.
    set (w := rmsAfter vs) in *.
    assert (Hin : (Z.to_nat (rmsHead w) < length (rmsBuf w))%nat).
    { rewrite Hlen. unfold RMS_WIN in *. lia. }
    rewrite rmsAfter_snoc. fold w.
    unfold chronological, occupied in *.
    destruct (Z.lt_ge_cases (rmsCount w) RMS_WIN) as [Hlt | Hge].
    + (* still filling: the window is the whole history *)
      assert (Hn : (length vs < 25)%nat) by (unfold RMS_WIN in *; lia).
      rewrite trailing_short in IH by lia.
      rewrite trailing_short by (rewrite length_app; simpl; lia).
      rewrite (Hfill Hlt) in *.
      rewrite drop_ge in IH by (rewrite length_take; lia).
      rewrite take_take, Nat.min_id in IH. cbn [app] in IH.
      rewrite rmsPush_filling by exact Hlt.
      cbn [rmsBuf rmsCount rmsHead].
      rewrite (Hfill Hlt).
      rewrite head_step by (unfold RMS_WIN in *; lia).
      rewrite u16_small by (unfold RMS_WIN in *; lia).
      replace (Z.to_nat (rmsCount w + 1)) with (S (Z.to_nat (rmsCount w))) by lia.
      rewrite (take_S_r _ _ v) by (apply list_lookup_insert_eq; lia).
      rewrite take_insert_ge by lia.
      rewrite IH.
      assert (Hl : Z.to_nat (rmsCount w) = length vs) by lia.
      destruct (Z.eq_dec (rmsCount w + 1) RMS_WIN) as [Hfull | Hnot].
      * rewrite Hfull, Z.mod_same by (unfold RMS_WIN; lia).
        change (Z.to_nat 0) with 0%nat.
        rewrite drop_0, take_0, app_nil_r. reflexivity.
      * rewrite Z.mod_small by (unfold RMS_WIN in *; lia).
        rewrite drop_ge by (rewrite length_app; simpl; lia).
        rewrite take_ge by (rewrite length_app; simpl; lia).
        reflexivity.
    + (* full: the slot at the write position holds the oldest value *)
      assert (Hn : (25 <= length vs)%nat) by (unfold RMS_WIN in *; lia).
      rewrite trailing_snoc by lia. rewrite <- IH.
      rewrite rmsPush_full by exact Hge.
      cbn [rmsBuf rmsCount rmsHead].
      rewrite head_step by exact Hhd.
      rewrite (take_ge (<[Z.to_nat (rmsHead w) := v]> (rmsBuf w))
                 (Z.to_nat (rmsCount w)))
        by (rewrite length_insert, Hlen; unfold RMS_WIN in *; lia).
      rewrite (take_ge (rmsBuf w) (Z.to_nat (rmsCount w)))
        by (rewrite Hlen; unfold RMS_WIN in *; lia).
      destruct (lookup_lt_is_Some_2 _ _ Hin) as [old Hold].
      set (h := Z.to_nat (rmsHead w)) in *.
      rewrite insert_take_drop by exact Hin.
      rewrite (drop_S _ old h Hold). cbn [drop app].
      destruct (Z.eq_dec (rmsHead w + 1) RMS_WIN) as [Hwrap | Hnot].
      * rewrite Hwrap, Z.mod_same by (unfold RMS_WIN; lia).
        assert (Hh : S h = length (rmsBuf w)).
        { rewrite Hlen. unfold RMS_WIN in *. lia. }
        rewrite (drop_ge (rmsBuf w) (S h)) by lia.
        change (Z.to_nat 0) with 0%nat.
        rewrite drop_0, take_0, app_nil_r. reflexivity.
      * rewrite Z.mod_small by (unfold RMS_WIN in *; lia).
        replace (Z.to_nat (rmsHead w + 1)) with (S h) by lia.
        assert (Hth : length (take h (rmsBuf w)) = h).
        { rewrite length_take. lia. }
        change (v :: drop (S h) (rmsBuf w)) with ([v] ++ drop (S h) (rmsBuf w)).
        rewrite app_assoc.
        rewrite drop_app_length' by (rewrite length_app, Hth; simpl; lia).
        rewrite take_app_length' by (rewrite length_app, Hth; simpl; lia).
        rewrite drop_0, <- app_assoc. reflexivity.
Qed.

(** Until the first eviction the running sum is the squares added in
    push order. *)
Lemma rmsSumSq_filling (vs : list F) :
  (length vs <= 25)%nat -> rmsSumSq (rmsAfter vs) = sumSqF vs.
Proof.
  induction vs as [| v vs IH] using rev_ind; intros Hle.
  - reflexivity.
  - rewrite length_app in Hle. cbn [length] in Hle.
    rewrite rmsAfter_snoc.
    rewrite rmsPush_filling
      by (rewrite rmsAfter_count; unfold RMS_WIN; lia).
    cbn [rmsSumSq]. rewrite IH by lia.
    unfold sumSqF. rewrite fold_left_app. reflexivity.
Qed.

(** The value returned by the last of a non-empty run of calls. *)
Lemma rmsLast_ret (vs : list F) (v : F) :
  rmsLast (vs ++ [v]) =
    Some (f_sqrt (f_div (rmsSumSq (rmsAfter (vs ++ [v])))
                    (f_of_int (Z.min (Z.of_nat (length (vs ++ [v]))) RMS_WIN)))).
Proof.
  rewrite rmsLast_snoc, rmsPush_ret, <- rmsAfter_snoc.
  rewrite rmsAfter_count, length_app. cbn [length].
  destruct (Z.eqb_spec (Z.min (Z.of_nat (length vs + 1)) RMS_WIN) 0) as [He | Hne].
  - unfold RMS_WIN in He. lia.
  - reflexivity.
Qed.

End RmsContents.

(** In exact arithmetic the running sum is the sum of the squares of the
    trailing 25 values. *)
Lemma exact_sum_trailing (vs : list R) :
  rmsSumSq (rmsAfter vs) = sumSq (trailing 25 vs).
Proof.
  destruct (sum_inv_run vs) as [_ Hsum].
  rewrite Hsum, <- chronological_trailing. unfold chronological.
  rewrite sumSq_app, Rplus_comm, <- sumSq_app, take_drop. reflexivity.
Qed.

(** C3, as the code has it.  After exactly 25 pushes the last call returns
    [sqrtf] of the squares, added in push order, over 25.  After more, the
    slots hold the trailing 25 values whatever the arithmetic, and in exact
    arithmetic the last call returns the square root of the mean of their
    squares, a function of the trailing 25 values alone.  In binary32, 25
    ones followed by 25 zeros end on exactly [+0], not NaN. *)
Theorem rms_window_correct :
  (forall (F : Type) (C : CFloat F) (vs : list F),
      length vs = 25%nat ->
      rmsLast vs = Some (f_sqrt (f_div (sumSqF vs) (f_of_int 25))))
  /\ (forall (F : Type) (C : CFloat F) (vs : list F),
      chronological (rmsAfter vs) = trailing 25 vs)
  /\ (forall vs : list R,
      (25 <= length vs)%nat ->
      rmsLast vs = Some (sqrt (sumSq (trailing 25 vs) / 25)))
  /\ rmsLast (replicate 25 f32_one ++ replicate 25 f32_zero) = Some F32.pzero.
Proof.
  split; [| split; [| split]].
  - intros F C vs Hlen.
    destruct vs as [| v vs _] using rev_ind; [discriminate Hlen |].
    rewrite rmsLast_ret, rmsSumSq_filling by lia.
    rewrite Hlen. reflexivity.
  - intros F C vs. apply chronological_trailing.
  - intros vs Hlen.
    destruct vs as [| v vs _] using rev_ind; [simpl in Hlen; lia |].
    rewrite rmsLast_ret, exact_sum_trailing.
    rewrite Z.min_r by (unfold RMS_WIN; lia). reflexivity.
  - vm_compute. reflexivity.
Qed.

(** The first part at 25 binary32 ones: the call returns [sqrtf (25 / 25)]. *)
Lemma rms_window_correct_witness :
  length (replicate 25 f32_one) = 25%nat
  /\ rmsLast (replicate 25 f32_one) = Some f32_one.
Proof.
  split; [reflexivity |].
  rewrite (proj1 rms_window_correct _ _ (replicate 25 f32_one) eq_refl).
  vm_compute. reflexivity.
Defined.

(** C3 as stated fails in binary32: a value of 4.0 followed by 25 values of
    [2^-12] and a value of 0.0 followed by the same 25 values have the same
    trailing window, and the last call returns [2^-12 / 5] for the first and
    [2^-12] for the second.  The squares [2^-24] are absorbed while 16.0 sits
    in the running sum, and are not recovered when it is evicted. *)
Lemma rms_trailing_counterexample :
  ~ (forall vs1 vs2 : list spec_float,
        (25 < length vs1)%nat -> (25 < length vs2)%nat ->
        trailing 25 vs1 = trailing 25 vs2 ->
        rmsLast vs1 = rmsLast vs2).
Proof.
  intros Hall.
  specialize (Hall (f32_four :: replicate 25 f32_tiny)
                   (f32_zero :: replicate 25 f32_tiny)).
  assert (Hne : rmsLast (f32_four :: replicate 25 f32_tiny)
                <> rmsLast (f32_zero :: replicate 25 f32_tiny)).
  { vm_compute. discriminate. }
  apply Hne, Hall.
  - simpl. lia.
  - simpl. lia.
  - reflexivity.
Qed.

(** ** The activity classifier *)

(** ** Decimal literals in binary32 *)

(** The digits and the power of ten of every literal of the sketch are
    binary32 values ([31415926 = 15707963 * 2]), so [F32.dec] rounds once. *)
Lemma literals_exact :
  F32.of_Z 31415926 = S754_finite false 15707963 1
  /\ F32.of_Z 10000000 = S754_finite false 10000000 0
  /\ F32.of_Z 81920 = S754_finite false 10485760 (-7)
  /\ F32.of_Z 1000 = S754_finite false 16384000 (-14)
  /\ F32.of_Z 100 = S754_finite false 13107200 (-17)
  /\ F32.of_Z 35 = S754_finite false 9175040 (-18)
  /\ F32.of_Z 20 = S754_finite false 10485760 (-19)
  /\ F32.of_Z 10 = S754_finite false 10485760 (-20)
  /\ F32.of_Z 5 = S754_finite false 10485760 (-21)
  /\ F32.of_Z 3 = S754_finite false 12582912 (-22).
Proof. vm_compute. repeat split; reflexivity. Qed.

(** The literals as the compiler stores them: [3.1415926f] is [0x40490FDA],
    [0.5f], [100.0f] and [8192.0f] are exact. *)
Lemma f32_literals :
  F32.dec 31415926 7 = S754_finite false 13176794 (-22)
  /\ F32.dec 5 1 = S754_finite false 8388608 (-24)
  /\ F32.dec 1000 1 = S754_finite false 13107200 (-17)
  /\ F32.dec 81920 1 = S754_finite false 8388608 (-10)
  /\ F32.dec 10 1 = S754_finite false 8388608 (-23)
  /\ F32.dec 20 1 = S754_finite false 8388608 (-22)
  /\ F32.dec 0 1 = S754_zero false.
Proof. vm_compute. repeat split; reflexivity. Qed.

(** The thresholds in exact arithmetic and as binary32 values. *)
Lemma exact_thresholds :
  (TH_STRUCT (F := R) = 3 / 100 /\ TH_FOOT (F := R) = 10 / 100
   /\ TH_KID (F := R) = 20 / 100 /\ TH_JUMP (F := R) = 35 / 100)%R.
Proof. unfold TH_STRUCT, TH_FOOT, TH_KID, TH_JUMP. simpl. repeat split; lra. Qed.

Lemma f32_thresholds :
  TH_STRUCT = S754_finite false 16106127 (-29)
  /\ TH_FOOT = S754_finite false 13421773 (-27)
  /\ TH_KID = S754_finite false 13421773 (-26)
  /\ TH_JUMP = S754_finite false 11744051 (-25).
Proof. vm_compute. repeat split; reflexivity. Qed.

Lemma exact_ge_true (x y : R) : (y <= x)%R -> f_ge x y = true.
Proof. intros Hle. simpl. unfold Exact.ge. destruct (Rle_dec y x); [reflexivity | contradiction]. Qed.

Lemma exact_ge_false (x y : R) : (x < y)%R -> f_ge x y = false.
Proof. intros Hlt. simpl. unfold Exact.ge. destruct (Rle_dec y x); [lra | reflexivity]. Qed.

(** C5.  The label is a function of the RMS value alone, the thresholds being
    tried from the highest down, each with a closed lower bound: whatever the
    arithmetic, the first comparison [rms >= TH] that holds decides; over the
    reals that is [rms >= 0.35] JUMP, else [>= 0.20] PLAY, else [>= 0.10] FOOT,
    else [>= 0.03] STRUCT, else CALM; in binary32 the four thresholds ascend,
    each threshold value itself gets the higher label ([0.10f] is FOOT), and
    the binary32 value just below [0.10f] is STRUCT. *)
Theorem classifyLabel_spec :
  (forall (F : Type) (C : CFloat F) (r : F),
      (f_ge r TH_JUMP = true -> classifyLabel r = "JUMP"%string)
      /\ (f_ge r TH_JUMP = false -> f_ge r TH_KID = true ->
          classifyLabel r = "PLAY"%string)
      /\ (f_ge r TH_JUMP = false -> f_ge r TH_KID = false ->
          f_ge r TH_FOOT = true -> classifyLabel r = "FOOT"%string)
      /\ (f_ge r TH_JUMP = false -> f_ge r TH_KID = false ->
          f_ge r TH_FOOT = false -> f_ge r TH_STRUCT = true ->
          classifyLabel r = "STRUCT"%string)
      /\ (f_ge r TH_JUMP = false -> f_ge r TH_KID = false ->
          f_ge r TH_FOOT = false -> f_ge r TH_STRUCT = false ->
          classifyLabel r = "CALM"%string))
  /\ (forall r : R,
      ((35 / 100 <= r)%R -> classifyLabel r = "JUMP"%string)
      /\ ((20 / 100 <= r < 35 / 100)%R -> classifyLabel r = "PLAY"%string)
      /\ ((10 / 100 <= r < 20 / 100)%R -> classifyLabel r = "FOOT"%string)
      /\ ((3 / 100 <= r < 10 / 100)%R -> classifyLabel r = "STRUCT"%string)
      /\ ((r < 3 / 100)%R -> classifyLabel r = "CALM"%string))
  /\ (SFltb (TH_STRUCT (F := spec_float)) TH_FOOT = true
      /\ SFltb (TH_FOOT (F := spec_float)) TH_KID = true
      /\ SFltb (TH_KID (F := spec_float)) TH_JUMP = true)
  /\ (classifyLabel (TH_JUMP (F := spec_float)) = "JUMP"%string
      /\ classifyLabel (TH_KID (F := spec_float)) = "PLAY"%string
      /\ classifyLabel (TH_FOOT (F := spec_float)) = "FOOT"%string
      /\ classifyLabel (TH_STRUCT (F := spec_float)) = "STRUCT"%string
      /\ classifyLabel (SFpred F32.prec F32.emax TH_FOOT) = "STRUCT"%string).
Proof.
  split; [| split; [| split]].
  - intros F C r. unfold classifyLabel.
    repeat split; intros; repeat match goal with H : f_ge _ _ = _ |- _ => rewrite H; clear H end;
      reflexivity.
  - intros r. destruct exact_thresholds as (Hs & Hf & Hk & Hj).
    unfold classifyLabel. rewrite Hs, Hf, Hk, Hj.
    repeat split; intros Hr.
    + rewrite exact_ge_true by lra. reflexivity.
    + rewrite exact_ge_false, exact_ge_true by lra. reflexivity.
    + rewrite !exact_ge_false, exact_ge_true by lra. reflexivity.
    + rewrite !exact_ge_false, exact_ge_true by lra. reflexivity.
    + rewrite !exact_ge_false by lra. reflexivity.
  - vm_compute. repeat split; reflexivity.
  - vm_compute. repeat split; reflexivity.
Qed.

(** The boundary [rms = 0.10] over the reals: FOOT, not STRUCT. *)
Lemma classifyLabel_spec_witness :
  (10 / 100 <= 10 / 100 < 20 / 100)%R
  /\ classifyLabel (10 / 100)%R = "FOOT"%string.
Proof.
  assert (Hr : (10 / 100 <= 10 / 100 < 20 / 100)%R) by lra.
  split; [exact Hr |].
  destruct classifyLabel_spec as (_ & Hexact & _).
  destruct (Hexact (10 / 100)%R) as (_ & _ & Hfoot & _).
  exact (Hfoot Hr).
Defined.

(** C10.  [classifyLabel] returns one of the five labels on every input; in
    binary32 every comparison with a NaN is false, so a NaN is labelled CALM,
    and so is the RMS of a window a NaN was pushed into. *)
Theorem classifyLabel_total :
  (forall (F : Type) (C : CFloat F) (r : F), In (classifyLabel r) labels)
  /\ (f_ge F32.nan TH_JUMP = false /\ f_ge F32.nan TH_KID = false
      /\ f_ge F32.nan TH_FOOT = false /\ f_ge F32.nan TH_STRUCT = false)
  /\ classifyLabel F32.nan = "CALM"%string
  /\ (rmsPush F32.nan rms_init).1 = F32.nan
  /\ classifyLabel (rmsPush F32.nan rms_init).1 = "CALM"%string.
Proof.
  split; [| split; [| split; [| split]]].
  - intros F C r. unfold classifyLabel, labels.
    destruct (f_ge r TH_JUMP); [simpl; tauto |].
    destruct (f_ge r TH_KID); [simpl; tauto |].
    destruct (f_ge r TH_FOOT); [simpl; tauto |].
    destruct (f_ge r TH_STRUCT); simpl; tauto.
  - vm_compute. repeat split; reflexivity.
  - vm_compute. reflexivity.
  - vm_compute. reflexivity.
  - vm_compute. reflexivity.
Qed.

(** ** binary32: signs of squares, sums and square roots *)

Lemma round_sign (sx : bool) (m e : Z) (l : location) :
  match binary_round_aux F32.prec F32.emax sx m e l with
  | S754_zero s | S754_infinity s | S754_finite s _ _ => s = sx
  | S754_nan => True
  end.
Proof.
  unfold binary_round_aux.
  destruct (shr_fexp F32.prec F32.emax m e l) as [mrs1 e1].
  destruct (shr_fexp F32.prec F32.emax _ e1 loc_Exact) as [mrs2 e2].
  destruct (shr_m mrs2); [reflexivity | | exact I].
  destruct (e2 <=? F32.emax - F32.prec); reflexivity.
Qed.

Lemma round_nonneg (m e : Z) (l : location) :
  F32.nonneg (binary_round_aux F32.prec F32.emax false m e l) = true.
Proof.
  pose proof (round_sign false m e l) as Hs.
  destruct (binary_round_aux F32.prec F32.emax false m e l);
    simpl; try rewrite Hs; reflexivity.
Qed.

Lemma f32_mul_self_nonneg (x : spec_float) : F32.nonneg (f_mul x x) = true.
Proof.
  destruct x as [s | s | | s m e]; simpl.
  - destruct s; reflexivity.
  - destruct s; reflexivity.
  - reflexivity.
  - replace (xorb s s) with false by (destruct s; reflexivity).
    apply round_nonneg.
Qed.

Lemma f32_add_nonneg (x y : spec_float) :
  F32.nonneg x = true -> F32.nonneg y = true -> F32.nonneg (f_add x y) = true.
Proof.
  unfold F32.nonneg.
  destruct x as [[|] | [|] | | [|] mx ex], y as [[|] | [|] | | [|] my ey];
    simpl; intros Hx Hy; try reflexivity; try discriminate.
  unfold binary_round.
  destruct (shl_align _ _ _) as [mz ez]. apply round_nonneg.
Qed.

Lemma f32_sqrt_nonneg (x : spec_float) :
  F32.nonneg x = true -> F32.nonneg (f_sqrt x) = true.
Proof.
  destruct x as [[|] | [|] | | [|] m e]; simpl; intros Hx;
    try reflexivity; try discriminate.
  destruct (SFsqrt_core_binary _ _ _ _) as [[mz ez] lz]. apply round_nonneg.
Qed.

(** The magnitude of a sample is never the negative zero. *)
Lemma f32_magnitude_nonneg (a : spec_float * spec_float * spec_float) :
  F32.nonneg (magnitude a) = true.
Proof.
  destruct a as [[ax ay] az]. unfold magnitude.
  apply f32_sqrt_nonneg, f32_add_nonneg; [apply f32_add_nonneg |];
    apply f32_mul_self_nonneg.
Qed.

(** [0.0f + (m - 0.0f)] is [m] itself, bit for bit. *)
Lemma f32_first_step (m : spec_float) :
  F32.nonneg m = true -> f_add (f_dec 0 1) (f_sub m (f_dec 0 1)) = m.
Proof.
  change (f_dec (F := spec_float) 0 1) with (S754_zero false).
  destruct m as [[|] | [|] | | [|] mm e]; simpl; intros Hm;
    try reflexivity; discriminate.
Qed.

(** [m - m] is [+0] for every finite [m]. *)
Lemma f32_sub_self (m : spec_float) :
  F32.finite m = true -> f_sub m m = F32.pzero.
Proof.
  destruct m as [[|] | [|] | | s mm e]; simpl; intros Hm;
    try reflexivity; try discriminate.
  rewrite Z.sub_diag. reflexivity.
Qed.

(** [h + (+0)] is [h] unless [h] is the negative zero. *)
Lemma f32_add_pzero (h : spec_float) :
  h <> F32.nzero -> f_add h F32.pzero = h.
Proof.
  destruct h as [[|] | [|] | | s mm e]; simpl; intros Hh;
    try reflexivity.
  exfalso. apply Hh. reflexivity.
Qed.

(** ** The high-pass coefficient *)

Section Coefficient.
Local Open Scope R_scope.

Lemma lt_div_r (a b c : R) : 0 < c -> a * c < b -> a < b / c.
Proof.
  intros Hc Hlt. apply Rmult_lt_reg_r with c; [exact Hc |].
  unfold Rdiv. rewrite Rmult_assoc, Rinv_l by lra. lra.
Qed.

Lemma div_lt_l (a b c : R) : 0 < c -> a < b * c -> a / c < b.
Proof.
  intros Hc Hlt. apply Rmult_lt_reg_r with c; [exact Hc |].
  unfold Rdiv. rewrite Rmult_assoc, Rinv_l by lra. lra.
Qed.

(** Seven decimals of pi, from the series of [atan (1/3)] and [atan (1/7)]. *)
Lemma PI_bounds : 31415926 / 10000000 < PI < 31415927 / 10000000.
Proof.
  pose proof (PI_2_3_7_ineq 4) as [Hlo Hhi].
  unfold PI_2_3_7_tg, Ratan_seq, tg_alt in Hlo, Hhi.
  simpl in Hlo, Hhi.
  split; lra.
Qed.

(** [hpAlpha] read over the reals. *)
Lemma exact_hpAlpha (fs fc : R) :
  hpAlpha fs fc =
    (1 / (2 * (31415926 / 10000000) * fc))
    / (1 / (2 * (31415926 / 10000000) * fc) + 1 / fs).
Proof.
  unfold hpAlpha. cbn [f_dec f_div f_mul f_add Exact.exact].
  change (10 ^ Z.of_nat 1)%Z with 10%Z.
  change (10 ^ Z.of_nat 7)%Z with 10000000%Z.
  replace (10 / 10) with 1 by lra. replace (20 / 10) with 2 by lra.
  reflexivity.
Qed.

Lemma exact_hpAlpha_range (fs fc : R) :
  0 < fs -> 0 < fc -> 0 < hpAlpha fs fc < 1.
Proof.
  intros Hfs Hfc. rewrite exact_hpAlpha.
  assert (HRC : 0 < 1 / (2 * (31415926 / 10000000) * fc)).
  { apply Rdiv_lt_0_compat; [lra |].
    apply Rmult_lt_0_compat; [lra | exact Hfc]. }
  assert (Hdt : 0 < 1 / fs) by (apply Rdiv_lt_0_compat; lra).
  split.
  - apply Rdiv_lt_0_compat; lra.
  - apply div_lt_l; lra.
Qed.

Lemma exact_reference : FS_HZ (F := R) = 100 /\ HP_FC_HZ (F := R) = 1 / 2.
Proof.
  unfold FS_HZ, HP_FC_HZ. cbn [f_dec Exact.exact].
  change (10 ^ Z.of_nat 1)%Z with 10%Z. split; lra.
Qed.

Lemma exact_alpha_ref :
  hpAlpha (F := R) FS_HZ HP_FC_HZ = 100 / (100 + 31415926 / 10000000).
Proof.
  destruct exact_reference as [Hfs Hfc].
  rewrite exact_hpAlpha, Hfs, Hfc. field.
Qed.

Lemma alpha_closed_ref : alpha_closed 100 (1 / 2) = 100 / (100 + PI).
Proof.
  pose proof PI_bounds as HP.
  unfold alpha_closed. field. split; lra.
Qed.

Lemma alpha_closed_bounds :
  969540971 / 1000000000 < alpha_closed 100 (1 / 2) < 969540973 / 1000000000.
Proof.
  pose proof PI_bounds as [Hlo Hhi]. rewrite alpha_closed_ref.
  split.
  - apply lt_div_r; lra.
  - apply div_lt_l; lra.
Qed.

(** The coefficient the binary32 sketch computes: [16266199 * 2^-24]. *)
Lemma f32_alpha : hpAlpha FS_HZ HP_FC_HZ = S754_finite false 16266199 (-24).
Proof. vm_compute. reflexivity. Qed.

Lemma f32_alpha_toR : F32.toR (hpAlpha FS_HZ HP_FC_HZ) = 16266199 / 16777216.
Proof. rewrite f32_alpha. reflexivity. Qed.

End Coefficient.

(** ** One sample tick and one iteration of [loop] *)

Section Iteration.
Context {F : Type} `{!CFloat F}.

(** The state a successful sample tick leaves. *)
Lemma processSample_state (now : Z) (a : F * F * F) (st : State F) :
  (processSample now a st).1 =
    let hp := f_mul (hp_alpha st)
                (f_add (hp_prev st) (f_sub (magnitude a) (mag_prev st))) in
    {| mpuAddr := mpuAddr st; nextTick := nextTick st;
       lastHeartbeatMs := lastHeartbeatMs st;
       lastImuPublishMs :=
         if publishDue now st then now else lastImuPublishMs st;
       hp_alpha := hp_alpha st; mag_prev := magnitude a; hp_prev := hp;
       rms := (rmsPush (f_abs hp) (rms st)).2 |}.
Proof.
  unfold processSample. destruct a as [[ax ay] az].
  destruct (rmsPush _ (rms st)) as [rmsv w].
  destruct (publishDue now st); reflexivity.
Qed.

(** What it publishes: the record it has just computed, or nothing. *)
Lemma processSample_events (now : Z) (a : F * F * F) (st : State F) :
  (processSample now a st).2 =
    if publishDue now st then [EvImu (sampleOutput now a st)] else [].
Proof.
  unfold processSample, sampleOutput. destruct a as [[ax ay] az].
  destruct (rmsPush _ (rms st)) as [rmsv w] eqn:Hp.
  destruct (publishDue now st); reflexivity.
Qed.

End Iteration.

(** ** Initialisation and what [loop] leaves alone *)

Section Constancy.
Context {F : Type} `{!CFloat F}.

Lemma mpuInit_spec (pa pb : Z) (ack : Z -> bool) (t : Z) (st : State F) :
  let r := mpuInit pa pb ack t st in
  mag_prev r.2 = mag_prev st /\ hp_prev r.2 = hp_prev st /\ rms r.2 = rms st
  /\ lastImuPublishMs r.2 = lastImuPublishMs st
  /\ (r.1 = false -> mpuAddr r.2 = 0 /\ hp_alpha r.2 = hp_alpha st
                     /\ nextTick r.2 = nextTick st)
  /\ (r.1 = true -> mpuAddr r.2 <> 0
                    /\ hp_alpha r.2 = hpAlpha FS_HZ HP_FC_HZ
                    /\ nextTick r.2 = u32 t).
Proof.
  unfold mpuInit.
  set (scanned := fold_left _ _ _).
  set (probed := if scanned =? 0 then _ else _).
  destruct (Z.eqb_spec probed 0) as [He | Hne]; cbn;
    repeat split; try reflexivity; try discriminate; auto.
Qed.

Lemma setup_state (ack : Z -> bool) (t : Z) :
  let st0 := (setup ack t).1 in
  mag_prev st0 = f_dec 0 1 /\ hp_prev st0 = f_dec 0 1 /\ rms st0 = rms_init
  /\ lastImuPublishMs st0 = 0
  /\ (mpuAddr st0 <> 0 ->
      hp_alpha st0 = hpAlpha FS_HZ HP_FC_HZ /\ nextTick st0 = u32 t).
Proof.
  unfold setup.
  pose proof (mpuInit_spec 104 105 ack t init_state) as Hspec.
  destruct (mpuInit 104 105 ack t init_state) as [ok st0].
  cbn [fst snd] in *.
  destruct Hspec as (Hm & Hh & Hr & Hl & Hfalse & Htrue).
  repeat split; try assumption.
  - destruct ok; [apply Htrue; reflexivity |].
    destruct (Hfalse eq_refl) as (Haddr & _). contradiction.
  - destruct ok; [apply Htrue; reflexivity |].
    destruct (Hfalse eq_refl) as (Haddr & _). contradiction.
Qed.

Lemma heartbeat_fields (now : Z) (st : State F) :
  let st' := (heartbeat now st).1 in
  mpuAddr st' = mpuAddr st /\ nextTick st' = nextTick st
  /\ lastImuPublishMs st' = lastImuPublishMs st
  /\ pipeline st' = pipeline st
  /\ List.filter isImu (heartbeat now st).2 = [].
Proof.
  unfold heartbeat.
  destruct (HEARTBEAT_EVERY_MS <=? _); cbn; repeat split; reflexivity.
Qed.

Lemma sampling_fields (now : Z) (bus : option (list Z)) (st : State F) :
  let st' := (sampling now bus st).1 in
  mpuAddr st' = mpuAddr st /\ hp_alpha st' = hp_alpha st
  /\ lastHeartbeatMs st' = lastHeartbeatMs st
  /\ nextTick st' =
       if sampleDue now st then u32 (nextTick st + DT_MS) else nextTick st.
Proof.
  unfold sampling.
  destruct (sampleDue now st); cbn [mpuAddr]; [| cbn; repeat split; reflexivity].
  destruct (mpuAddr st =? 0); [cbn; repeat split; reflexivity |].
  destruct (readAccel_g bus) as [a |]; [| cbn; repeat split; reflexivity].
  rewrite processSample_state. cbn. repeat split; reflexivity.
Qed.

Lemma loop_fields (millis : Z) (bus : option (list Z)) (st : State F) :
  let st' := (loop millis bus st).1 in
  mpuAddr st' = mpuAddr st /\ hp_alpha st' = hp_alpha st
  /\ nextTick st' =
       if sampleDue (u32 millis) st
       then u32 (nextTick st + DT_MS) else nextTick st.
Proof.
  unfold loop. cbv zeta. cbn [fst].
  destruct (heartbeat_fields (u32 millis) (sampling (u32 millis) bus st).1)
    as (Ha & Hn & _ & Hp & _).
  destruct (sampling_fields (u32 millis) bus st) as (Ha' & Hal' & _ & Hn').
  unfold pipeline in Hp. injection Hp as Hal _ _ _.
  rewrite Ha, Hn, Hal. repeat split; assumption.
Qed.

Lemma run_fields (checks : list (Z * option (list Z))) (st : State F) :
  mpuAddr (run checks st).1 = mpuAddr st
  /\ hp_alpha (run checks st).1 = hp_alpha st.
Proof.
  revert st. induction checks as [| [t bus] rest IH]; intros st.
  - split; reflexivity.
  - cbn [run fst]. destruct (IH (loop t bus st).1) as [Ha Hal].
    destruct (loop_fields t bus st) as (Ha' & Hal' & _).
    rewrite Ha, Hal. split; assumption.
Qed.

End Constancy.

(** ** The high-pass filter *)

(** C4.  The coefficient is [RC / (RC + dt)] with [RC = 1 / (2 * 3.1415926 * fc)]
    and [dt = 1 / fs]; for [fs = 100], [fc = 0.5] it is within [10^-8] of the
    closed form with the real pi in exact arithmetic and within [10^-7] of it
    as the binary32 sketch computes it.  [setup] stores it when it finds the
    accelerometer, with both previous values at 0, and no run of [loop]
    changes it.  Every sample tick computes
    [hp = alpha * (hp_prev + (mag - mag_prev))], stores [hp] and [mag] as the
    previous values and hands [fabsf hp] on; with both previous values at 0
    the first output is [alpha * mag], in exact arithmetic and bit for bit in
    binary32. *)
Theorem highpass_spec :
  (forall fs fc : R,
      hpAlpha fs fc =
        ((1 / (2 * (31415926 / 10000000) * fc))
         / (1 / (2 * (31415926 / 10000000) * fc) + 1 / fs))%R)
  /\ (Rabs (hpAlpha (F := R) FS_HZ HP_FC_HZ - alpha_closed 100 (1 / 2))
      < 1 / 10 ^ 8)%R
  /\ (Rabs (F32.toR (hpAlpha FS_HZ HP_FC_HZ) - alpha_closed 100 (1 / 2))
      < 1 / 10 ^ 7)%R
  /\ (forall (F : Type) (C : CFloat F) (ack : Z -> bool) (t : Z)
             (checks : list (Z * option (list Z))),
      let st0 := (setup ack t).1 in
      let st := (run checks st0).1 in
      mag_prev st0 = f_dec 0 1 /\ hp_prev st0 = f_dec 0 1
      /\ hp_alpha st = hp_alpha st0
      /\ (mpuAddr st <> 0 -> hp_alpha st = hpAlpha FS_HZ HP_FC_HZ))
  /\ (forall (F : Type) (C : CFloat F) (now : Z) (a : F * F * F) (st : State F),
      let hp := f_mul (hp_alpha st)
                  (f_add (hp_prev st) (f_sub (magnitude a) (mag_prev st))) in
      hp_prev (processSample now a st).1 = hp
      /\ mag_prev (processSample now a st).1 = magnitude a
      /\ hp_alpha (processSample now a st).1 = hp_alpha st
      /\ j_hp_abs (sampleOutput now a st) = f_abs hp)
  /\ (forall (now : Z) (a : R * R * R) (st : State R),
      hp_prev st = 0%R -> mag_prev st = 0%R ->
      hp_prev (processSample now a st).1 = (hp_alpha st * magnitude a)%R)
  /\ (forall (now : Z) (a : spec_float * spec_float * spec_float)
             (st : State spec_float),
      hp_prev st = f_dec 0 1 -> mag_prev st = f_dec 0 1 ->
      hp_prev (processSample now a st).1 = f_mul (hp_alpha st) (magnitude a)).
Proof.
  split; [exact exact_hpAlpha |].
  split.
  { pose proof alpha_closed_bounds as [Hlo Hhi].
    rewrite exact_alpha_ref.
    assert (H1 : (969540971 / 1000000000
                  < 100 / (100 + 31415926 / 10000000)
                  < 969540973 / 1000000000)%R).
    { split; [apply lt_div_r | apply div_lt_l]; lra. }
    apply Rabs_def1; lra. }
  split.
  { pose proof alpha_closed_bounds as [Hlo Hhi].
    rewrite f32_alpha_toR. apply Rabs_def1; lra. }
  split.
  { intros F C ack t checks st0 st.
    destruct (setup_state (F := F) ack t) as (Hm & Hh & _ & _ & Hfound).
    destruct (run_fields checks st0) as [Ha Hal].
    fold st0 in Hm, Hh, Hfound. fold st in Ha, Hal.
    repeat split; try assumption.
    intros Hne. rewrite Hal. apply Hfound. rewrite <- Ha. exact Hne. }
  split.
  { intros F C now a st hp. rewrite processSample_state.
    cbn. repeat split; reflexivity. }
  split.
  { intros now a st Hh Hm. rewrite processSample_state.
    cbn. rewrite Hh, Hm. f_equal. lra. }
  intros now a st Hh Hm. rewrite processSample_state.
  cbn [hp_prev]. rewrite Hh, Hm.
  rewrite f32_first_step by apply f32_magnitude_nonneg. reflexivity.
Qed.

(** The first tick of the binary32 sketch on a board at rest, 1 g on the
    z axis: the output is the coefficient itself. *)
Lemma highpass_spec_witness :
  hp_prev (setup (F := spec_float) (fun a => a =? 104) 100).1 = f_dec 0 1
  /\ mag_prev (setup (F := spec_float) (fun a => a =? 104) 100).1 = f_dec 0 1
  /\ hp_prev (processSample 100 (F32.pzero, F32.pzero, f32_one)
                (setup (fun a => a =? 104) 100).1).1
     = hpAlpha FS_HZ HP_FC_HZ.
Proof.
  assert (Hh : hp_prev (setup (F := spec_float) (fun a => a =? 104) 100).1
               = f_dec 0 1) by (vm_compute; reflexivity).
  assert (Hm : mag_prev (setup (F := spec_float) (fun a => a =? 104) 100).1
               = f_dec 0 1) by (vm_compute; reflexivity).
  split; [exact Hh |]. split; [exact Hm |].
  destruct highpass_spec as (_ & _ & _ & _ & _ & _ & Hfirst).
  rewrite (Hfirst 100 (F32.pzero, F32.pzero, f32_one) _ Hh Hm).
  vm_compute. reflexivity.
Defined.

(** *** A constant magnitude in exact arithmetic *)

Section ConstantFeed.
Local Open Scope R_scope.

Lemma feed_snoc {F : Type} `{!CFloat F} (xs : list (Z * (F * F * F)))
    (x : Z * (F * F * F)) (st : State F) :
  feed (xs ++ [x]) st = (processSample x.1 x.2 (feed xs st)).1.
Proof. unfold feed. rewrite fold_left_app. reflexivity. Qed.

(** Once the previous magnitude is the constant fed, every tick multiplies
    the output by the coefficient. *)
Lemma feed_const (m : R) (xs : list (Z * (R * R * R))) (st : State R) :
  mag_prev st = m ->
  Forall (fun x => magnitude x.2 = m) xs ->
  hp_alpha (feed xs st) = hp_alpha st
  /\ mag_prev (feed xs st) = m
  /\ hp_prev (feed xs st) = hp_alpha st ^ length xs * hp_prev st.
Proof.
  revert st. induction xs as [| x xs IH]; intros st Hm Hall.
  - cbn. repeat split; [exact Hm | lra].
  - inversion Hall as [| y ys Hx Hxs]; subst y ys.
    change (feed (x :: xs) st) with (feed xs (processSample x.1 x.2 st).1).
    destruct (IH (processSample x.1 x.2 st).1) as (Ha & Hmag & Hhp).
    + rewrite processSample_state. cbn. exact Hx.
    + exact Hxs.
    + rewrite Ha, Hmag, Hhp. rewrite processSample_state. cbn.
      rewrite Hx, Hm. repeat split. lra.
Qed.

(** From any starting state: the closed form of the output after [1 + n]
    ticks of constant magnitude. *)
Lemma feed_const_closed (m : R) (x : Z * (R * R * R))
    (xs : list (Z * (R * R * R))) (st : State R) :
  Forall (fun y => magnitude y.2 = m) (x :: xs) ->
  hp_prev (feed (x :: xs) st) =
    hp_alpha st ^ length xs
    * (hp_alpha st * (hp_prev st + (m - mag_prev st))).
Proof.
  intros Hall. inversion Hall as [| y ys Hx Hxs]; subst y ys.
  change (feed (x :: xs) st) with (feed xs (processSample x.1 x.2 st).1).
  destruct (feed_const m xs (processSample x.1 x.2 st).1) as (_ & _ & Hhp).
  - rewrite processSample_state. cbn. exact Hx.
  - exact Hxs.
  - rewrite Hhp. rewrite processSample_state. cbn. rewrite Hx. reflexivity.
Qed.

Lemma feed_const_ratio (m : R) (xs : list (Z * (R * R * R)))
    (x : Z * (R * R * R)) (st : State R) :
  xs <> [] ->
  Forall (fun y => magnitude y.2 = m) (xs ++ [x]) ->
  hp_prev (feed (xs ++ [x]) st) = hp_alpha st * hp_prev (feed xs st).
Proof.
  intros Hne Hall. apply Forall_app in Hall as [Hxs Hx].
  inversion Hx as [| y ys Hmx _]; subst y ys.
  destruct xs as [| x0 xs]; [contradiction |].
  inversion Hxs as [| y ys Hx0 Hxs']; subst y ys.
  rewrite feed_snoc, processSample_state. cbn [hp_prev].
  change (feed (x0 :: xs) st) with (feed xs (processSample x0.1 x0.2 st).1).
  destruct (feed_const m xs (processSample x0.1 x0.2 st).1) as (Ha & Hmag & _).
  - rewrite processSample_state. cbn. exact Hx0.
  - exact Hxs'.
  - rewrite Ha, Hmag, Hmx. rewrite processSample_state. cbn [hp_alpha].
    cbn [f_mul f_add f_sub Exact.exact]. f_equal. lra.
Qed.

End ConstantFeed.

(** *** A constant magnitude in binary32 *)

Lemma feed_app {F : Type} `{!CFloat F} (xs ys : list (Z * (F * F * F)))
    (st : State F) :
  feed (xs ++ ys) st = feed ys (feed xs st).
Proof. unfold feed. apply fold_left_app. Qed.

(** The coefficient of the sketch times [16 * 2^-149] rounds back to
    [16 * 2^-149]. *)
Lemma f32_floor_fixed : f_mul (hpAlpha FS_HZ HP_FC_HZ) f32_floor = f32_floor.
Proof. vm_compute. reflexivity. Qed.

(** Once the output is [16 * 2^-149], ticks that repeat the previous
    magnitude leave it there. *)
Lemma f32_stall (xs : list (Z * (spec_float * spec_float * spec_float))) :
  forall st : State spec_float,
    hp_alpha st = hpAlpha FS_HZ HP_FC_HZ ->
    hp_prev st = f32_floor ->
    F32.finite (mag_prev st) = true ->
    Forall (fun x => magnitude x.2 = mag_prev st) xs ->
    hp_prev (feed xs st) = f32_floor.
Proof.
  induction xs as [| x xs IH]; intros st Ha Hh Hfin Hall.
  - exact Hh.
  - inversion Hall as [| y ys Hx Hxs]; subst y ys.
    change (feed (x :: xs) st) with (feed xs (processSample x.1 x.2 st).1).
    apply IH; rewrite processSample_state; cbn [hp_alpha hp_prev mag_prev].
    + exact Ha.
    + rewrite Hx, f32_sub_self by exact Hfin.
      rewrite Hh, f32_add_pzero by discriminate.
      rewrite Ha. exact f32_floor_fixed.
    + rewrite Hx. exact Hfin.
    + rewrite Hx. exact Hxs.
Qed.

(** A board at rest, 1 g on the z axis: 3400 sample ticks after [setup] the
    output is [16 * 2^-149]. *)
Lemma f32_reaches_floor :
  let st := feed (replicate 3400 (100, sample_1g))
              (setup (F := spec_float) ack68 100).1 in
  hp_alpha st = hpAlpha FS_HZ HP_FC_HZ
  /\ hp_prev st = f32_floor
  /\ mag_prev st = f32_one.
Proof. vm_compute. repeat split; reflexivity. Qed.

(** [sample_1g] is what [readAccel_g] makes of [bus_1g], and its magnitude
    is 1.0. *)
Lemma bus_1g_sample :
  readAccel_g bus_1g = Some sample_1g /\ magnitude sample_1g = f32_one.
Proof. vm_compute. split; reflexivity. Qed.

Lemma f32_floor_pos : (0 < F32.toR f32_floor)%R.
Proof.
  unfold f32_floor, F32.toR. cbn [Z.leb Z.compare].
  apply Rdiv_lt_0_compat; [lra |]. apply IZR_lt. reflexivity.
Qed.

(** C9, as the code has it.  When a constant magnitude [m] is fed from any
    starting state, the first tick outputs
    [alpha * (hp_prev + (m - mag_prev))], whatever the arithmetic, and each
    later tick, whose magnitude repeats the previous one, multiplies the
    high-pass output by [alpha].  In exact arithmetic the coefficient of the
    sketch lies strictly between 0 and 1, the output after [1 + n] ticks is
    [alpha ^ n] times the first, its absolute value never grows, and it falls
    below any positive tolerance after enough ticks.  In binary32 each such
    tick returns the rounded product of [alpha] and the previous output, and
    the decay ends on a fixed point of that product: once the output is
    [16 * 2^-149] it stays there, and a board at rest at 1 g is there 3400
    ticks after [setup]. *)
Theorem dc_rejection :
  (0 < hpAlpha (F := R) FS_HZ HP_FC_HZ < 1)%R
  /\ (forall (now : Z) (a : R * R * R) (st : State R),
      mag_prev st = magnitude a ->
      hp_prev (processSample now a st).1 = (hp_alpha st * hp_prev st)%R)
  /\ (forall (st : State R) (m : R) (x : Z * (R * R * R))
             (xs : list (Z * (R * R * R))),
      Forall (fun y => magnitude y.2 = m) (x :: xs) ->
      hp_prev (feed (x :: xs) st) =
        (hp_alpha st ^ length xs
         * (hp_alpha st * (hp_prev st + (m - mag_prev st))))%R)
  /\ (forall (st : State R) (m : R) (xs : list (Z * (R * R * R)))
             (x : Z * (R * R * R)),
      xs <> [] ->
      Forall (fun y => magnitude y.2 = m) (xs ++ [x]) ->
      hp_prev (feed (xs ++ [x]) st) = (hp_alpha st * hp_prev (feed xs st))%R
      /\ ((0 < hp_alpha st < 1)%R ->
          (Rabs (hp_prev (feed (xs ++ [x]) st))
           <= Rabs (hp_prev (feed xs st)))%R))
  /\ (forall (st : State R) (m eps : R),
      (0 < hp_alpha st < 1)%R -> (0 < eps)%R ->
      exists N : nat,
        forall xs : list (Z * (R * R * R)),
          (N <= length xs)%nat ->
          Forall (fun y => magnitude y.2 = m) xs ->
          (Rabs (hp_prev (feed xs st)) < eps)%R)
  /\ (forall (now : Z) (a : spec_float * spec_float * spec_float)
             (st : State spec_float),
      F32.finite (magnitude a) = true ->
      mag_prev st = magnitude a ->
      hp_prev st <> F32.nzero ->
      hp_prev (processSample now a st).1 = f_mul (hp_alpha st) (hp_prev st))
  /\ (forall (F : Type) (C : CFloat F) (now : Z) (a : F * F * F) (st : State F),
      hp_prev (processSample now a st).1 =
        f_mul (hp_alpha st)
          (f_add (hp_prev st) (f_sub (magnitude a) (mag_prev st))))
  /\ (forall (xs : list (Z * (spec_float * spec_float * spec_float)))
             (st : State spec_float),
      hp_alpha st = hpAlpha FS_HZ HP_FC_HZ ->
      hp_prev st = f32_floor ->
      F32.finite (mag_prev st) = true ->
      Forall (fun x => magnitude x.2 = mag_prev st) xs ->
      hp_prev (feed xs st) = f32_floor)
  /\ hp_prev (feed (replicate 3400 (100, sample_1g))
                (setup (F := spec_float) ack68 100).1) = f32_floor
  /\ (0 < F32.toR f32_floor)%R.
Proof.
  split.
  { destruct exact_reference as [Hfs Hfc]. rewrite Hfs, Hfc.
    apply exact_hpAlpha_range; lra. }
  split.
  { intros now a st Hm. rewrite processSample_state. cbn [hp_prev].
    rewrite Hm. cbn [f_mul f_add f_sub Exact.exact]. f_equal. lra. }
  split.
  { intros st m x xs Hall. apply feed_const_closed. exact Hall. }
  split.
  { intros st m xs x Hne Hall.
    pose proof (feed_const_ratio m xs x st Hne Hall) as Hr.
    split; [exact Hr |].
    intros [Ha0 Ha1]. rewrite Hr, Rabs_mult, (Rabs_pos_eq (hp_alpha st)) by lra.
    pose proof (Rabs_pos (hp_prev (feed xs st))) as Hp.
    rewrite <- (Rmult_1_l (Rabs (hp_prev (feed xs st)))) at 2.
    apply Rmult_le_compat_r; lra. }
  split.
  { intros st m eps [Ha0 Ha1] Heps.
    set (h1 := (hp_alpha st * (hp_prev st + (m - mag_prev st)))%R).
    assert (HB : (0 < Rabs h1 + 1)%R) by (pose proof (Rabs_pos h1); lra).
    assert (Habs : (Rabs (hp_alpha st) < 1)%R) by (rewrite Rabs_pos_eq; lra).
    destruct (pow_lt_1_zero (hp_alpha st) Habs (eps / (Rabs h1 + 1))%R)
      as [N0 HN0].
    { apply Rdiv_lt_0_compat; lra. }
    exists (S N0). intros xs Hlen Hall.
    destruct xs as [| x xs]; [simpl in Hlen; lia |].
    rewrite (feed_const_closed m x xs st Hall). fold h1.
    rewrite Rabs_mult.
    assert (Hpow : (Rabs (hp_alpha st ^ length xs) < eps / (Rabs h1 + 1))%R).
    { apply HN0. simpl in Hlen. lia. }
    apply (Rmult_lt_compat_r (Rabs h1 + 1)) in Hpow; [| exact HB].
    replace (eps / (Rabs h1 + 1) * (Rabs h1 + 1))%R with eps in Hpow
      by (field; lra).
    pose proof (Rabs_pos (hp_alpha st ^ length xs)) as Hp.
    pose proof (Rabs_pos h1) as Hh.
    nra. }
  split.
  { intros now a st Hfin Hm Hnz. rewrite processSample_state. cbn [hp_prev].
    rewrite Hm, f32_sub_self by exact Hfin.
    rewrite f32_add_pzero by exact Hnz. reflexivity. }
  split.
  { intros F C now a st. rewrite processSample_state. reflexivity. }
  split.
  { intros xs st. apply f32_stall. }
  split.
  { exact (proj1 (proj2 f32_reaches_floor)). }
  exact f32_floor_pos.
Qed.

(** One instance in exact arithmetic: with coefficient 1/2 and tolerance
    1/1000, enough ticks of constant magnitude 1 bring the output below the
    tolerance. *)
Lemma dc_rejection_witness :
  (0 < 1 / 2 < 1)%R /\ (0 < 1 / 1000)%R
  /\ exists N : nat,
       forall xs : list (Z * (R * R * R)),
         (N <= length xs)%nat ->
         Forall (fun y => magnitude y.2 = 1%R) xs ->
         (Rabs (hp_prev (feed xs
            {| mpuAddr := 104; nextTick := 0; lastHeartbeatMs := 0;
               lastImuPublishMs := 0; hp_alpha := (1 / 2)%R;
               mag_prev := 0%R; hp_prev := 0%R; rms := rms_init |}))
          < 1 / 1000)%R.
Proof.
  assert (Ha : (0 < 1 / 2 < 1)%R) by lra.
  assert (He : (0 < 1 / 1000)%R) by lra.
  split; [exact Ha |]. split; [exact He |].
  destruct dc_rejection as (_ & _ & _ & _ & Hconv & _).
  exact (Hconv
           {| mpuAddr := 104; nextTick := 0; lastHeartbeatMs := 0;
              lastImuPublishMs := 0; hp_alpha := (1 / 2)%R;
              mag_prev := 0%R; hp_prev := 0%R; rms := rms_init |}
           1%R (1 / 1000)%R Ha He).
Defined.

(** C9 as stated fails on the binary32 sketch.  Fresh from [setup], the first
    tick at 1 g outputs the coefficient itself, not the coefficient times
    the previous output, which is 0.  And with the board left at rest at 1 g
    the output does not fall below every tolerance: from the 3400th tick on
    it is [16 * 2^-149] at every tick, so it never gets below that value. *)
Lemma dc_rejection_counterexample :
  (hp_prev (processSample 100 sample_1g
              (setup (F := spec_float) ack68 100).1).1
     = hpAlpha FS_HZ HP_FC_HZ
   /\ f_mul (hp_alpha (setup (F := spec_float) ack68 100).1)
         (hp_prev (setup (F := spec_float) ack68 100).1) = F32.pzero)
  /\ ~ (forall eps : R,
          (0 < eps)%R ->
          exists N : nat,
            forall n : nat,
              (N <= n)%nat ->
              (Rabs (F32.toR
                       (hp_prev (feed (replicate n (100%Z, sample_1g))
                                   (setup (F := spec_float) ack68 100).1)))
               < eps)%R).
Proof.
  split.
  - vm_compute. split; reflexivity.
  - intros Hconv.
    destruct (Hconv (F32.toR f32_floor) f32_floor_pos) as [N HN].
    specialize (HN (3400 + N)%nat ltac:(lia)).
    rewrite replicate_add, feed_app in HN.
    destruct f32_reaches_floor as (Ha & Hh & Hm).
    rewrite (f32_stall (replicate N (100, sample_1g)) _ Ha Hh) in HN.
    + pose proof f32_floor_pos as Hpos.
      rewrite Rabs_pos_eq in HN by lra. lra.
    + rewrite Hm. reflexivity.
    + rewrite Hm. apply Forall_replicate. vm_compute. reflexivity.
Qed.

(** ** The two timers of [loop] *)

Section Timers.
Context {F : Type} `{!CFloat F}.

Lemma processSample_pipeline (now : Z) (a : F * F * F) (st : State F) :
  pipeline (processSample now a st).1 = pipelineStep a (pipeline st).
Proof. rewrite processSample_state. reflexivity. Qed.

(** What an iteration does to the pipeline state. *)
Lemma loop_pipeline (millis : Z) (bus : option (list Z)) (st : State F) :
  pipeline (loop millis bus st).1 =
    if sampleDue (u32 millis) st && negb (mpuAddr st =? 0) then
      match readAccel_g bus with
      | Some a => pipelineStep a (pipeline st)
      | None => pipeline st
      end
    else pipeline st.
Proof.
  unfold loop. cbv zeta. cbn [fst].
  destruct (heartbeat_fields (u32 millis) (sampling (u32 millis) bus st).1)
    as (_ & _ & _ & Hp & _).
  rewrite Hp. unfold sampling.
  destruct (sampleDue (u32 millis) st); cbn [mpuAddr andb]; [| reflexivity].
  destruct (mpuAddr st =? 0); cbn [negb]; [reflexivity |].
  destruct (readAccel_g bus) as [a |]; [| reflexivity].
  rewrite processSample_pipeline. reflexivity.
Qed.

(** The IMU records an iteration publishes, and the publish timer after it. *)
Lemma loop_publish (millis : Z) (bus : option (list Z)) (st : State F) :
  let now := u32 millis in
  let fires := sampleDue now st && negb (mpuAddr st =? 0) && publishDue now st in
  List.filter isImu (loop millis bus st).2 =
    (if fires then
       match readAccel_g bus with
       | Some a => [EvImu (sampleOutput now a st)]
       | None => []
       end
     else [])
  /\ lastImuPublishMs (loop millis bus st).1 =
       (if fires then
          match readAccel_g bus with
          | Some _ => now
          | None => lastImuPublishMs st
          end
        else lastImuPublishMs st).
Proof.
  unfold loop. cbv zeta. cbn [fst snd].
  destruct (heartbeat_fields (u32 millis) (sampling (u32 millis) bus st).1)
    as (_ & _ & Hl & _ & He).
  rewrite Hl, List.filter_app, He, app_nil_r. unfold sampling.
  destruct (sampleDue (u32 millis) st); cbn [mpuAddr andb];
    [| split; reflexivity].
  destruct (mpuAddr st =? 0); cbn [negb andb]; [split; reflexivity |].
  destruct (readAccel_g bus) as [a |].
  - rewrite processSample_events, processSample_state. cbn [lastImuPublishMs].
    change (publishDue (u32 millis) _) with (publishDue (u32 millis) st).
    destruct (publishDue (u32 millis) st); split; reflexivity.
  - destruct (publishDue (u32 millis) st); split; reflexivity.
Qed.

(** A due time that is not in the future, and less than [2^31] ms old,
    fires; one in the future does not. *)
Lemma sampleDue_past (now : Z) (st : State F) :
  nextTick st <= now -> now - nextTick st < 2 ^ 31 -> sampleDue now st = true.
Proof.
  intros Hle Hlt. unfold sampleDue. rewrite s32_small by lia.
  apply Z.leb_le. lia.
Qed.

Lemma sampleDue_future (now : Z) (st : State F) :
  now < nextTick st -> nextTick st - now <= 2 ^ 31 -> sampleDue now st = false.
Proof.
  intros Hlt Hle. unfold sampleDue. rewrite s32_small by lia.
  apply Z.leb_gt. lia.
Qed.

(** Counting the fired ticks of a run that starts at most one period after
    the due time. *)
Lemma run_ticks (gap : Z) (checks : list (Z * option (list Z))) :
  forall (t : Z) (st : State F),
    0 <= t -> 0 <= nextTick st <= t + DT_MS ->
    (checks = [] -> t < 2 ^ 31) ->
    spaced gap t checks ->
    let st' := (run checks st).1 in
    nextTick st' = nextTick st + DT_MS * firedTicks checks st
    /\ 0 <= firedTicks checks st
    /\ nextTick st' <= lastTime t checks + DT_MS
    /\ lastTime t checks < 2 ^ 31
    /\ (gap <= DT_MS -> t - DT_MS < nextTick st ->
        lastTime t checks - DT_MS < nextTick st').
Proof.
  induction checks as [| [t' bus] rest IH]; intros t st Ht Hnext Hnil Hsp.
  - cbn. repeat split; try lia. apply Hnil. reflexivity.
  - destruct Hsp as (Htt & Hb & Hsp).
    cbn [run firedTicks lastTime fst].
    destruct (loop_fields t' bus st) as (_ & _ & Hn).
    rewrite (u32_small t') in * by lia.
    assert (Hdue : sampleDue t' st = true -> nextTick st <= t').
    { unfold sampleDue. rewrite s32_small by (unfold DT_MS in *; lia).
      intros Hd. apply Z.leb_le in Hd. lia. }
    assert (Hnot : sampleDue t' st = false -> t' < nextTick st).
    { unfold sampleDue. rewrite s32_small by (unfold DT_MS in *; lia).
      intros Hd. apply Z.leb_gt in Hd. lia. }
    destruct (sampleDue t' st) eqn:Hd.
    + specialize (Hdue eq_refl).
      rewrite u32_small in Hn by (unfold DT_MS in *; lia).
      destruct (IH t' (loop t' bus st).1) as (H1 & H2 & H3 & H4 & H5);
        [lia | rewrite Hn; unfold DT_MS in *; lia | intros _; lia | exact Hsp |].
      rewrite Hn in *. unfold DT_MS in *. lia.
    + specialize (Hnot eq_refl).
      destruct (IH t' (loop t' bus st).1) as (H1 & H2 & H3 & H4 & H5);
        [lia | rewrite Hn; unfold DT_MS in *; lia | intros _; lia | exact Hsp |].
      rewrite Hn in *. unfold DT_MS in *. lia.
Qed.

End Timers.

Lemma lastTime_ge (gap : Z) (checks : list (Z * option (list Z))) (t : Z) :
  spaced gap t checks -> t <= lastTime t checks.
Proof.
  revert t. induction checks as [| [t' b] rest IH]; intros t Hsp; cbn in *.
  - lia.
  - destruct Hsp as (Ht & _ & Hsp). specialize (IH t' Hsp). lia.
Qed.

(** C6, as the code has it.  The sample tick is drift free: when it fires,
    its due time advances by the period, whatever the current time; a due
    time in the past fires at the next check.  Over a run of checks before
    [millis()] wraps, the due time is the first one plus the period times the
    number of fired ticks, which is at most elapsed / period + 1, is at least
    elapsed / period when successive checks are at most one period apart, and
    is exactly elapsed / period + 1 whenever the last check leaves the tick
    not due.  The publish timer is another rule: it is looked at only inside
    a sample tick whose read succeeded, and on firing it is set to the current
    time. *)
Theorem sample_tick_drift_free :
  (forall (F : Type) (C : CFloat F) (millis : Z) (bus : option (list Z))
          (st : State F),
      nextTick (loop millis bus st).1 =
        if sampleDue (u32 millis) st
        then u32 (nextTick st + DT_MS) else nextTick st)
  /\ (forall (F : Type) (C : CFloat F) (now : Z) (st : State F),
      nextTick st <= now -> now - nextTick st < 2 ^ 31 ->
      sampleDue now st = true)
  /\ (forall (F : Type) (C : CFloat F) (gap : Z)
             (checks : list (Z * option (list Z))) (st : State F),
      0 <= nextTick st -> checks <> [] ->
      spaced gap (nextTick st) checks ->
      let n := firedTicks checks st in
      let tl := lastTime (nextTick st) checks in
      let elapsed := tl - nextTick st in
      nextTick (run checks st).1 = nextTick st + DT_MS * n
      /\ n <= elapsed / DT_MS + 1
      /\ (gap <= DT_MS -> elapsed / DT_MS <= n)
      /\ (sampleDue tl (run checks st).1 = false -> n = elapsed / DT_MS + 1))
  /\ (forall (F : Type) (C : CFloat F) (millis : Z) (bus : option (list Z))
             (st : State F),
      lastImuPublishMs (loop millis bus st).1 =
        if sampleDue (u32 millis) st && negb (mpuAddr st =? 0)
           && publishDue (u32 millis) st
        then match readAccel_g bus with
             | Some _ => u32 millis
             | None => lastImuPublishMs st
             end
        else lastImuPublishMs st).
Proof.
  split; [| split; [| split]].
  - intros F C millis bus st. apply loop_fields.
  - intros F C now st. apply sampleDue_past.
  - intros F C gap checks st Hn Hne Hsp n tl elapsed.
    destruct (run_ticks gap checks (nextTick st) st) as (H1 & H2 & H3 & H4 & H5);
      [lia | unfold DT_MS; lia | intros He; contradiction | exact Hsp |].
    fold n in H1, H2. fold tl in H3, H4, H5.
    assert (Helapsed : 0 <= elapsed).
    { pose proof (lastTime_ge gap checks (nextTick st) Hsp). subst elapsed tl. lia. }
    unfold DT_MS in *. subst elapsed.
    pose proof (Z.div_mod (tl - nextTick st) 10 ltac:(lia)) as Hq.
    pose proof (Z.mod_pos_bound (tl - nextTick st) 10 ltac:(lia)) as Hr.
    split; [exact H1 |]. split; [| split].
    + lia.
    + intros Hg. specialize (H5 Hg). lia.
    + intros Hd.
      assert (Hlt : tl < nextTick (run checks st).1).
      { unfold sampleDue in Hd. rewrite s32_small in Hd by lia.
        apply Z.leb_gt in Hd. lia. }
      lia.
  - intros F C millis bus st. apply loop_publish.
Qed.

(** A binary32 run from [setup] at 100 ms with checks at 100, 112 and 120 ms:
    three ticks fired, the due time is 130 ms, and the tick is not due after
    the last check. *)
Lemma sample_tick_drift_free_witness :
  0 <= nextTick (setup (F := spec_float) ack68 100).1
  /\ spaced 12 (nextTick (setup (F := spec_float) ack68 100).1)
       [(100, bus_1g); (112, bus_1g); (120, bus_1g)]
  /\ nextTick (run [(100, bus_1g); (112, bus_1g); (120, bus_1g)]
                 (setup (F := spec_float) ack68 100).1).1
     = 100 + DT_MS * 3.
Proof.
  assert (Hn : 0 <= nextTick (setup (F := spec_float) ack68 100).1)
    by (vm_compute; discriminate).
  assert (Hsp : spaced 12 (nextTick (setup (F := spec_float) ack68 100).1)
                  [(100, bus_1g); (112, bus_1g); (120, bus_1g)]).
  { vm_compute. repeat split; discriminate. }
  split; [exact Hn |]. split; [exact Hsp |].
  destruct sample_tick_drift_free as (_ & _ & Hrun & _).
  destruct (Hrun spec_float _ 12 [(100, bus_1g); (112, bus_1g); (120, bus_1g)]
              (setup ack68 100).1 Hn ltac:(discriminate) Hsp) as (Hnext & _).
  rewrite Hnext. vm_compute. reflexivity.
Defined.

(** C6 as stated fails on the publish timer and on runs that stall.  After
    [setup] at 57 ms, the iteration at 57 ms publishes and sets
    [lastImuPublishMs] to 57, the current time, not to the previous value
    plus the 50 ms period.  After [setup] at 100 ms, a first iteration at
    200 ms (the loop was held up for 100 ms) fires one sample tick where
    elapsed / period is 10. *)
Lemma drift_free_counterexample :
  (let st0 := (setup (F := spec_float) ack68 57).1 in
   let r := loop 57 bus_1g st0 in
   publishDue 57 st0 = true
   /\ imuCount r.2 = 1%nat
   /\ lastImuPublishMs r.1 = 57
   /\ lastImuPublishMs r.1 <> lastImuPublishMs st0 + PUBLISH_EVERY_MS)
  /\ (let st0 := (setup (F := spec_float) ack68 100).1 in
      firedTicks [(200, bus_1g)] st0 = 1
      /\ (200 - nextTick st0) / DT_MS = 10).
Proof.
  vm_compute. repeat split; try reflexivity; discriminate.
Qed.

(** ** Failure of the accelerometer read *)

(** C8.  On an iteration whose accelerometer read fails, or would fail, the
    coefficient, both previous values and the whole RMS window (buffer,
    count, head and running sum) are unchanged, no IMU record is published
    and the publish timer is not touched.  The next iteration with a
    successful read then runs the filter recursion from the state before the
    failure: its pipeline state and the record it computes are those the
    same sample gives from that state. *)
Theorem read_failure_skips_tick {F : Type} `{!CFloat F}
    (millis : Z) (bus : option (list Z)) (st : State F) :
  readAccel_g (F := F) bus = None ->
  let st' := (loop millis bus st).1 in
  pipeline st' = pipeline st
  /\ lastImuPublishMs st' = lastImuPublishMs st
  /\ List.filter isImu (loop millis bus st).2 = []
  /\ forall (millis' : Z) (bus' : option (list Z)) (a : F * F * F),
       readAccel_g bus' = Some a ->
       pipeline (loop millis' bus' st').1 =
         (if sampleDue (u32 millis') st' && negb (mpuAddr st =? 0)
          then pipelineStep a (pipeline st) else pipeline st)
       /\ sampleOutput (u32 millis') a st' = sampleOutput (u32 millis') a st.
Proof.
  intros Hfail st'.
  assert (Hp : pipeline st' = pipeline st).
  { subst st'. rewrite loop_pipeline, Hfail.
    destruct (sampleDue (u32 millis) st && negb (mpuAddr st =? 0)); reflexivity. }
  destruct (loop_publish millis bus st) as [Hev Hlast].
  rewrite Hfail in Hev, Hlast.
  split; [exact Hp |]. split; [| split].
  - fold st' in Hlast. rewrite Hlast.
    destruct (_ && _ && _); reflexivity.
  - rewrite Hev. destruct (_ && _ && _); reflexivity.
  - intros millis' bus' a Hok. split.
    + rewrite loop_pipeline, Hok, Hp.
      destruct (loop_fields millis bus st) as (Ha & _). fold st' in Ha.
      rewrite Ha. reflexivity.
    + unfold pipeline in Hp. injection Hp as Hal Hm Hh Hr.
      unfold sampleOutput. rewrite Hal, Hm, Hh, Hr. reflexivity.
Qed.

(** A failed read (no acknowledgement) at 100 ms on the binary32 sketch
    fresh from [setup]: the pipeline state is the one [setup] left. *)
Lemma read_failure_skips_tick_witness :
  readAccel_g (F := spec_float) None = None
  /\ pipeline (loop 100 None (setup (F := spec_float) ack68 100).1).1
     = pipeline (setup (F := spec_float) ack68 100).1.
Proof.
  split; [reflexivity |].
  exact (proj1 (read_failure_skips_tick 100 None
                  (setup (F := spec_float) ack68 100).1 eq_refl)).
Defined.

(** ** Publication *)

Section Publication.
Context {F : Type} `{!CFloat F}.

Lemma phase_shift (j k : nat) :
  ((k + (j + 1) mod 5) mod 5 =? 0)%nat = (S (k + j) mod 5 =? 0)%nat.
Proof.
  rewrite Nat.Div0.add_mod_idemp_r. f_equal. f_equal. lia.
Qed.

(** Sample ticks exactly one period apart, every read succeeding: where in
    the 5-tick cycle the publications fall.  [j] is the number of sample
    ticks since the last publication, 0 when one is due now. *)
Lemma ideal_run (buses : list (option (list Z))) :
  forall (t : Z) (st : State F) (j : nat),
    mpuAddr st <> 0 -> nextTick st = t ->
    0 <= lastImuPublishMs st <= t ->
    t + DT_MS * Z.of_nat (length buses) < 2 ^ 31 ->
    Forall (fun b => readAccel_g (F := F) b <> None) buses ->
    (j = 0%nat /\ PUBLISH_EVERY_MS <= t - lastImuPublishMs st)
    \/ ((1 <= j <= 4)%nat /\ t - lastImuPublishMs st = DT_MS * Z.of_nat j) ->
    map imuCount (run (idealChecks t buses) st).2 =
      map (fun k => if ((k + j) mod 5 =? 0)%nat then 1%nat else 0%nat)
        (seq 0 (length buses))
    /\ firedTicks (idealChecks t buses) st = Z.of_nat (length buses).
Proof.
  induction buses as [| b rest IH]; intros t st j Haddr Hnext Hlast Hend Hok Hph.
  - split; reflexivity.
  - inversion Hok as [| b' rest' Hb Hrest]; subst b' rest'.
    cbn [length] in Hend.
    assert (Hend' := Hend). unfold DT_MS in Hend'.
    cbn [idealChecks run firedTicks fst snd length seq map].
    assert (Hu : u32 t = t) by (apply u32_small; lia).
    assert (Hdue : sampleDue t st = true) by (apply sampleDue_past; lia).
    destruct (loop_fields t b st) as (Ha & _ & Hn).
    destruct (loop_publish t b st) as [Hev Hl].
    rewrite Hu in Hn, Hev, Hl. rewrite Hdue in Hn, Hev, Hl.
    rewrite u32_small in Hn by (unfold DT_MS in *; lia).
    assert (Hz : (mpuAddr st =? 0) = false) by (apply Z.eqb_neq; exact Haddr).
    rewrite Hz in Hev, Hl. cbn [negb andb] in Hev, Hl.
    destruct (readAccel_g b) as [a |] eqn:Hread; [| contradiction].
    assert (Hpd : publishDue t st = (PUBLISH_EVERY_MS <=? t - lastImuPublishMs st)).
    { unfold publishDue. rewrite u32_small by lia. reflexivity. }
    rewrite Hpd in Hev, Hl. rewrite Hu, Hdue.
    specialize (IH (t + DT_MS) (loop t b st).1 ((j + 1) mod 5)%nat).
    rewrite <- seq_shift, map_map.
    destruct Hph as [[Hj Hd] | [Hj Hd]].
    + (* a publication is due: this tick publishes *)
      subst j.
      assert (Hle : (PUBLISH_EVERY_MS <=? t - lastImuPublishMs st) = true)
        by (apply Z.leb_le; exact Hd).
      rewrite Hle in Hev, Hl.
      destruct IH as [IH1 IH2];
        [rewrite Ha; exact Haddr | rewrite Hn, Hnext; reflexivity
        | rewrite Hl; unfold DT_MS; lia | unfold DT_MS in *; lia
        | exact Hrest
        | right; rewrite Hl; split; [cbn; lia | cbn; unfold DT_MS; lia] |].
      rewrite IH1, IH2. unfold imuCount at 1. rewrite Hev.
      split; [| lia]. cbn [length Nat.add]. f_equal.
      apply map_ext. intros k.
      apply (f_equal (fun c : bool => if c then 1%nat else 0%nat)).
      exact (phase_shift 0 k).
    + (* between two publications *)
      assert (Hle : (PUBLISH_EVERY_MS <=? t - lastImuPublishMs st) = false)
        by (apply Z.leb_gt; unfold PUBLISH_EVERY_MS, DT_MS in *; lia).
      rewrite Hle in Hev, Hl.
      destruct IH as [IH1 IH2];
        [rewrite Ha; exact Haddr | rewrite Hn, Hnext; reflexivity
        | rewrite Hl; unfold DT_MS; lia | unfold DT_MS in *; lia
        | exact Hrest
        | rewrite Hl; unfold PUBLISH_EVERY_MS, DT_MS in *;
          destruct j as [| [| [| [| [| j]]]]]; cbn; lia |].
      rewrite IH1, IH2. unfold imuCount at 1. rewrite Hev.
      split; [| lia]. cbn [length].
      replace ((0 + j) mod 5 =? 0)%nat with false
        by (destruct j as [| [| [| [| [| j]]]]]; try reflexivity; lia).
      f_equal. apply map_ext. intros k.
      apply (f_equal (fun c : bool => if c then 1%nat else 0%nat)).
      exact (phase_shift j k).
Qed.

End Publication.

(** C7, as the code has it.  The publish check sits inside the sample tick:
    an iteration publishes an IMU record exactly when the sample tick fires,
    an accelerometer is present, its read succeeds and at least 50 ms have
    passed since the last publication, and the record is the one that very
    tick has just computed, not an average.  When the sample ticks run exactly
    10 ms apart with successful reads, starting with a publication due, every
    tick fires and one record is published per 5 sample ticks, on ticks
    0, 5, 10, ... *)
Theorem publish_with_sample_tick :
  (forall (F : Type) (C : CFloat F) (millis : Z) (bus : option (list Z))
          (st : State F),
      List.filter isImu (loop millis bus st).2 =
        if sampleDue (u32 millis) st && negb (mpuAddr st =? 0)
           && publishDue (u32 millis) st
        then match readAccel_g bus with
             | Some a => [EvImu (sampleOutput (u32 millis) a st)]
             | None => []
             end
        else [])
  /\ (forall (F : Type) (C : CFloat F) (buses : list (option (list Z)))
             (st : State F),
      mpuAddr st <> 0 ->
      0 <= lastImuPublishMs st ->
      lastImuPublishMs st + PUBLISH_EVERY_MS <= nextTick st ->
      nextTick st + DT_MS * Z.of_nat (length buses) < 2 ^ 31 ->
      Forall (fun b => readAccel_g (F := F) b <> None) buses ->
      map imuCount (run (idealChecks (nextTick st) buses) st).2 =
        map (fun k => if (k mod 5 =? 0)%nat then 1%nat else 0%nat)
          (seq 0 (length buses))
      /\ firedTicks (idealChecks (nextTick st) buses) st
         = Z.of_nat (length buses)).
Proof.
  split.
  - intros F C millis bus st. apply loop_publish.
  - intros F C buses st Haddr Hl0 Hl Hend Hok.
    destruct (ideal_run buses (nextTick st) st 0%nat) as [H1 H2];
      try assumption; try reflexivity.
    + unfold PUBLISH_EVERY_MS in *. lia.
    + left. split; [reflexivity | lia].
    + split; [| exact H2]. rewrite H1. apply map_ext. intros k.
      rewrite Nat.add_0_r. reflexivity.
Qed.

(** Six ideal ticks of the binary32 sketch after [setup] at 100 ms: records
    on the first and the sixth. *)
Lemma publish_with_sample_tick_witness :
  mpuAddr (setup (F := spec_float) ack68 100).1 <> 0
  /\ map imuCount
       (run (idealChecks 100 (replicate 6 bus_1g))
          (setup (F := spec_float) ack68 100).1).2
     = [1; 0; 0; 0; 0; 1]%nat.
Proof.
  assert (Haddr : mpuAddr (setup (F := spec_float) ack68 100).1 <> 0)
    by (vm_compute; discriminate).
  split; [exact Haddr |].
  destruct publish_with_sample_tick as [_ Hideal].
  destruct (Hideal spec_float _ (replicate 6 bus_1g)
              (setup (F := spec_float) ack68 100).1 Haddr) as [Hcount _].
  - vm_compute. discriminate.
  - vm_compute. discriminate.
  - vm_compute. reflexivity.
  - repeat constructor; discriminate.
  - exact Hcount.
Defined.

(** C7 as stated fails when the ticks are not exactly on time.  After
    [setup] at 100 ms, let the iterations run at 109, 111, 120, 130, 140,
    150, 159 and 160 ms.  Seven sample ticks fire; records are published on
    the first and on the seventh, six ticks later.  At 159 ms a publication
    is due (50 ms after the one at 109 ms) and no sample tick is, and
    nothing is published. *)
Lemma publish_counterexample :
  let st0 := (setup (F := spec_float) ack68 100).1 in
  let checks := [(109, bus_1g); (111, bus_1g); (120, bus_1g); (130, bus_1g);
                 (140, bus_1g); (150, bus_1g); (159, bus_1g); (160, bus_1g)] in
  let st6 := (run (take 6 checks) st0).1 in
  map imuCount (run checks st0).2 = [1; 0; 0; 0; 0; 0; 0; 1]%nat
  /\ firedTicks checks st0 = 7
  /\ publishDue 159 st6 = true
  /\ sampleDue 159 st6 = false
  /\ imuCount (loop 159 bus_1g st6).2 = 0%nat.
Proof.
  vm_compute. repeat split; reflexivity.
Qed.
